(** * wizards-bot: the URL substitution engine ([src/url.ts])

    The engine is [substituteUrls]: [String.prototype.replace] driven by the
    global regular expression [URL_REGEX], with [maybeReplaceUrl] as the
    replacer callback.  The callback builds a platform [URL] object, tests
    [url.host.endsWith(...)], assigns [url.host] and serialises the object.
    The repository also keeps two earlier versions of the file, which are
    embedded as [UrlV1] and [UrlV2].

    Text is a [string]: a sequence of bytes.  The scanner only ever matches
    ASCII code units and copies everything else through untouched, so reading
    a text as its UTF-8 bytes or as UTF-16 code units gives the same spans. *)

From Stdlib Require Import Bool Arith Lia List NArith.
From Stdlib Require Import Strings.Ascii Strings.String.
Import ListNotations.

Open Scope string_scope.
Open Scope nat_scope.

(** ** Completions: a JavaScript call returns normally or throws *)

Inductive Error : Type :=
| TypeError (message : string).

Inductive Completion (A : Type) : Type :=
| Normal (value : A)
| Throw (e : Error).

Arguments Normal {A} value.
Arguments Throw {A} e.

Definition bind {A B : Type} (c : Completion A) (f : A -> Completion B) : Completion B :=
  match c with
  | Normal a => f a
  | Throw e => Throw e
  end.

Notation "x <- c ;; k" := (bind c (fun x => k))
  (at level 61, c at next level, right associativity).

Fixpoint mapM {A B : Type} (f : A -> Completion B) (l : list A) : Completion (list B) :=
  match l with
  | [] => Normal []
  | a :: l' => b <- f a ;; bs <- mapM f l' ;; Normal (b :: bs)
  end.

(** ** Character tests *)

Definition code (c : ascii) : N := N_of_ascii c.

Definition in_range (lo hi : N) (c : ascii) : bool :=
  ((lo <=? code c) && (code c <=? hi))%N.

Definition is_digit (c : ascii) : bool := in_range 48 57 c.
Definition is_upper (c : ascii) : bool := in_range 65 90 c.
Definition is_lower (c : ascii) : bool := in_range 97 122 c.
Definition is_alpha (c : ascii) : bool := is_upper c || is_lower c.

(** [\w] without the [u] and [i] flags: [A-Za-z0-9_]. *)
Definition is_word (c : ascii) : bool :=
  is_alpha c || is_digit c || Ascii.eqb c "_".

Fixpoint one_of (set : string) (c : ascii) : bool :=
  match set with
  | EmptyString => false
  | String a set' => Ascii.eqb c a || one_of set' c
  end.

(** ** String helpers (the JavaScript string methods the code uses) *)

Fixpoint take (n : nat) (s : string) : string :=
  match n, s with
  | S n', String c s' => String c (take n' s')
  | _, _ => EmptyString
  end.

Fixpoint drop (n : nat) (s : string) : string :=
  match n, s with
  | S n', String _ s' => drop n' s'
  | _, _ => s
  end.

(** [S.substring(from, to)] for [from <= to]. *)
Definition js_substring (s : string) (from to : nat) : string :=
  take (to - from) (drop from s).

(** [s.endsWith(suffix)]. *)
Definition endsWith (s suffix : string) : bool :=
  (length suffix <=? length s) &&
  String.eqb (drop (length s - length suffix) s) suffix.

Definition startsWith (s pre : string) : bool := String.prefix pre s.

(** ** Regular expressions: the fragment of the pattern language [URL_REGEX] uses *)

Inductive regex : Type :=
| Lit (c : ascii)                 (* a literal character *)
| Class (p : ascii -> bool)       (* a character class [...] *)
| Cat (r1 r2 : regex)             (* concatenation *)
| Quest (r : regex)               (* greedy r? *)
| Rep1 (r : regex).               (* greedy r+ *)

(** A continuation receives the text that is still unread and returns the
    unread text at the end of the whole match, as the matcher continuations of
    the ECMAScript semantics do with the end index. *)
Definition Cont : Type := string -> option string.

(** RepeatMatcher with [min = 0], [max = infinity], greedy: try one more
    iteration that consumes something, otherwise continue. *)
Fixpoint repeat_matcher (m : Cont -> Cont) (k : Cont) (fuel : nat) (s : string)
  : option string :=
  match fuel with
  | 0 => k s
  | S fuel' =>
      match m (fun s' => if length s' <? length s
                         then repeat_matcher m k fuel' s' else None) s with
      | Some r => Some r
      | None => k s
      end
  end.

Fixpoint rmatch (r : regex) (k : Cont) (s : string) : option string :=
  match r with
  | Lit c =>
      match s with
      | String a s' => if Ascii.eqb a c then k s' else None
      | EmptyString => None
      end
  | Class p =>
      match s with
      | String a s' => if p a then k s' else None
      | EmptyString => None
      end
  | Cat r1 r2 => rmatch r1 (rmatch r2 k) s
  | Quest r1 =>
      match rmatch r1 (fun s' => if length s' <? length s then k s' else None) s with
      | Some x => Some x
      | None => k s
      end
  | Rep1 r1 =>
      rmatch r1 (fun s' => repeat_matcher (rmatch r1) k (length s') s') s
  end.

Fixpoint lits (s : string) : regex -> regex :=
  match s with
  | EmptyString => fun r => r
  | String c s' => fun r => Cat (Lit c) (lits s' r)
  end.

(** [[\w.-]] *)
Definition host_class (c : ascii) : bool := is_word c || one_of ".-" c.

(** [[\w\-\._~:/?#[\]@!\$&'\(\)\*\+,;=.]] *)
Definition tail_class (c : ascii) : bool :=
  is_word c || one_of "-._~:/?#[]@!$&'()*+,;=." c.

(** [/(?:https?:\/\/)[\w.-]+(?:\.[\w\.-]+)+[\w\-\._~:/?#[\]@!\$&'\(\)\*\+,;=.]+/g] *)
Definition URL_REGEX : regex :=
  lits "http" (Cat (Quest (Lit "s")) (lits ":/" (Cat (Lit "/")
    (Cat (Rep1 (Class host_class))
      (Cat (Rep1 (Cat (Lit ".") (Rep1 (Class host_class))))
        (Rep1 (Class tail_class))))))).

(** The matcher run at the start of [s]: the matched prefix and the rest. *)
Definition match_here (r : regex) (s : string) : option (string * string) :=
  match rmatch r Some s with
  | Some rest => Some (take (length s - length rest) s, rest)
  | None => None
  end.

(** RegExpBuiltinExec for a global expression: [s] is the text from
    [lastIndex] on; the index is advanced one unit at a time until the matcher
    succeeds or the end of the text is passed. *)
Fixpoint exec (r : regex) (s : string) (lastIndex : nat)
  : option (nat * string * string) :=
  match match_here r s with
  | Some (m, rest) => Some (lastIndex, m, rest)
  | None =>
      match s with
      | EmptyString => None
      | String _ s' => exec r s' (S lastIndex)
      end
  end.

(** The result-collecting loop of [RegExp.prototype[Symbol.replace]]: every
    match, with its position; after an empty match the index advances by one. *)
Fixpoint matchAll (fuel : nat) (r : regex) (s : string) (lastIndex : nat)
  : list (nat * string) :=
  match fuel with
  | 0 => []
  | S fuel' =>
      match exec r s lastIndex with
      | None => []
      | Some (position, m, rest) =>
          (position, m) ::
          match m with
          | EmptyString =>
              match rest with
              | EmptyString => []
              | String _ rest' => matchAll fuel' r rest' (S position)
              end
          | _ => matchAll fuel' r rest (position + length m)
          end
      end
  end.

Definition results (r : regex) (text : string) : list (nat * string) :=
  matchAll (S (length text)) r text 0.

(** The second loop of [Symbol.replace]: the callback is called on each match
    in order, and the pieces between the matches are copied. *)
Fixpoint accumulate (text : string) (replacer : string -> Completion string)
  (rs : list (nat * string)) (accumulatedResult : string)
  (nextSourcePosition : nat) : Completion string :=
  match rs with
  | [] =>
      Normal (accumulatedResult ++ drop nextSourcePosition text)
  | (position, matched) :: rs' =>
      replacement <- replacer matched ;;
      if nextSourcePosition <=? position
      then accumulate text replacer rs'
             (accumulatedResult
                ++ js_substring text nextSourcePosition position ++ replacement)
             (position + length matched)
      else accumulate text replacer rs' accumulatedResult nextSourcePosition
  end.

(** [text.replace(r, replacer)] for a global [r] and a function [replacer]. *)
Definition replace (text : string) (r : regex)
  (replacer : string -> Completion string) : Completion string :=
  accumulate text replacer (results r text) "" 0.

(** ** The platform [URL] class

    [new URL(s)], the [host] getter and setter and [toString()] belong to the
    runtime, not to the repository.  They are modelled after the URL Standard
    (the basic URL parser without a base URL, the host parser, the URL
    serialiser) for the two schemes the scanner lets through, http and https. *)

Inductive Host : Type :=
| Domain (name : string)
| IPv4 (address : N)
| HostExt (serialized : string).

Record URLRecord : Type := mkURL {
  scheme : string;
  username : string;
  password : string;
  host : Host;
  port : option N;
  path : list string;
  query : option string;
  fragment : option string
}.

Definition lower_char (c : ascii) : ascii :=
  if is_upper c then ascii_of_N (code c + 32) else c.

Fixpoint lower (s : string) : string :=
  match s with
  | EmptyString => EmptyString
  | String c s' => String (lower_char c) (lower s')
  end.

Fixpoint forallb_str (p : ascii -> bool) (s : string) : bool :=
  match s with
  | EmptyString => true
  | String c s' => p c && forallb_str p s'
  end.

Definition existsb_str (p : ascii -> bool) (s : string) : bool :=
  negb (forallb_str (fun c => negb (p c)) s).

(** The longest prefix without a character of [p], and what follows. *)
Fixpoint span_until (p : ascii -> bool) (s : string) : string * string :=
  match s with
  | EmptyString => (EmptyString, EmptyString)
  | String c s' =>
      if p c then (EmptyString, s)
      else let (a, b) := span_until p s' in (String c a, b)
  end.

(** Strict split on a separator. *)
Fixpoint split_on (sep : ascii) (s : string) : list string :=
  match s with
  | EmptyString => [EmptyString]
  | String c s' =>
      if Ascii.eqb c sep then EmptyString :: split_on sep s'
      else match split_on sep s' with
           | x :: xs => String c x :: xs
           | [] => [String c EmptyString]
           end
  end.

(** The text before and after the last occurrence of [c]. *)
Fixpoint split_last (c : ascii) (s : string) : option (string * string) :=
  match s with
  | EmptyString => None
  | String a s' =>
      match split_last c s' with
      | Some (u, h) => Some (String a u, h)
      | None => if Ascii.eqb a c then Some (EmptyString, s') else None
      end
  end.

(** *** Percent-encode sets *)

Definition hex_digit (n : N) : ascii :=
  if (n <? 10)%N then ascii_of_N (48 + n) else ascii_of_N (55 + n).

Definition percent_encode_byte (c : ascii) : string :=
  String "%" (String (hex_digit (code c / 16)) (String (hex_digit (code c mod 16)) "")).

Definition dquote : ascii := ascii_of_N 34.

Definition c0_control_set (c : ascii) : bool :=
  ((code c <=? 31) || (126 <? code c))%N.
Definition fragment_set (c : ascii) : bool :=
  c0_control_set c || one_of " <>`" c || Ascii.eqb c dquote.
Definition query_set (c : ascii) : bool :=
  c0_control_set c || one_of " #<>" c || Ascii.eqb c dquote.
Definition special_query_set (c : ascii) : bool :=
  query_set c || Ascii.eqb c "'".
Definition path_set (c : ascii) : bool :=
  query_set c || one_of "?^`{}" c.
Definition userinfo_set (c : ascii) : bool :=
  path_set c || one_of "/:;=@[\]|" c.

Fixpoint percent_encode (set : ascii -> bool) (s : string) : string :=
  match s with
  | EmptyString => EmptyString
  | String c s' =>
      (if set c then percent_encode_byte c else String c EmptyString)
        ++ percent_encode set s'
  end.

(** *** Numbers *)

Definition digit_value (c : ascii) : N :=
  if is_digit c then code c - 48
  else if is_upper c then code c - 55
  else code c - 87.

Definition is_radix_digit (radix : N) (c : ascii) : bool :=
  (is_digit c || in_range 65 70 c || in_range 97 102 c)
  && (digit_value c <? radix)%N.

Fixpoint number_value (radix : N) (acc : N) (s : string) : N :=
  match s with
  | EmptyString => acc
  | String c s' => number_value radix (acc * radix + digit_value c)%N s'
  end.

Fixpoint decimal_digits (fuel : nat) (n : N) (acc : string) : string :=
  match fuel with
  | 0 => acc
  | S fuel' =>
      let acc' := String (ascii_of_N (48 + n mod 10)) acc in
      if (n <? 10)%N then acc' else decimal_digits fuel' (n / 10) acc'
  end.

Definition N_to_string (n : N) : string :=
  decimal_digits (S (N.to_nat (N.log2 n))) n "".

(** *** The host parser *)

Definition forbidden_domain_code_point (c : ascii) : bool :=
  ((code c <=? 32) || (code c =? 127))%N || one_of "#/:<>?@[\]^|%" c.

(** The IPv4 number parser: a value in radix 10, 8 (leading [0]) or 16
    (leading [0x]), or failure. *)
Definition ipv4_number (input : string) : option N :=
  match input with
  | EmptyString => None
  | String "0" (String x rest) =>
      if one_of "xX" x
      then if forallb_str (is_radix_digit 16) rest
           then Some (number_value 16 0 rest) else None
      else if forallb_str (is_radix_digit 8) (String x rest)
           then Some (number_value 8 0 (String x rest)) else None
  | _ =>
      if forallb_str (is_radix_digit 10) input
      then Some (number_value 10 0 input) else None
  end.

Definition drop_last_empty (parts : list string) : list string :=
  match rev parts with
  | EmptyString :: ((_ :: _) as front) => rev front
  | _ => parts
  end.

Definition ends_in_number (input : string) : bool :=
  match rev (split_on "." input) with
  | [EmptyString] => false
  | EmptyString :: last :: _ | last :: _ =>
      match last with
      | EmptyString => false
      | _ => forallb_str is_digit last
             || match ipv4_number last with Some _ => true | None => false end
      end
  | [] => false
  end.

Fixpoint option_all {A : Type} (l : list (option A)) : option (list A) :=
  match l with
  | [] => Some []
  | Some a :: l' => option_map (cons a) (option_all l')
  | None :: _ => None
  end.

Definition ipv4_parse (input : string) : option N :=
  let parts := drop_last_empty (split_on "." input) in
  if 4 <? List.length parts then None
  else
    match option_all (map ipv4_number parts) with
    | None => None
    | Some numbers =>
        match rev numbers with
        | [] => None
        | last :: front =>
            if existsb (fun n => (255 <? n)%N) front then None
            else if (256 ^ (5 - N.of_nat (List.length numbers)) <=? last)%N then None
            else Some (fold_left (fun acc n => acc * 256 + n)%N (rev front) 0
                         * 256 ^ (4 - N.of_nat (List.length front)) + last)%N
        end
    end.

Definition ipv4_serialize (a : N) : string :=
  N_to_string (a / 16777216) ++ "." ++ N_to_string ((a / 65536) mod 256) ++ "."
    ++ N_to_string ((a / 256) mod 256) ++ "." ++ N_to_string (a mod 256).

Definition is_ascii_byte (c : ascii) : bool := (code c <? 128)%N.

Definition has_punycode_label (input : string) : bool :=
  existsb (fun label => startsWith (lower label) "xn--") (split_on "." input).

(** A domain the host parser settles by lower-casing alone: ASCII, nothing to
    percent-decode, no bracket literal and no [xn--] label. *)
Definition plain_domain (input : string) : bool :=
  forallb_str is_ascii_byte input
  && negb (existsb_str (Ascii.eqb "%") input)
  && negb (startsWith input "[")
  && negb (has_punycode_label input).

Definition serialize_host (h : Host) : string :=
  match h with
  | Domain name => name
  | IPv4 a => ipv4_serialize a
  | HostExt s => s
  end.

Definition invalid_url : Error := TypeError "Invalid URL".

(** What the development leaves to the runtime. *)
Class Platform : Type := {
  (** The host parser on the inputs that need tables and algorithms kept
      outside this development (IPv6 literals in brackets, Punycode labels,
      percent-encoded or non-ASCII domains): the serialised host, or failure. *)
  host_ext : string -> option string;
  (** The URL parser on an input with a scheme other than http and https; the
      scanner never produces one. *)
  URL_other_scheme : string -> Completion URLRecord
}.

Section Engine.

Context {platform : Platform}.

Definition parse_host (input : string) : option Host :=
  if plain_domain input then
    let asciiDomain := lower input in
    if existsb_str forbidden_domain_code_point asciiDomain then None
    else if ends_in_number asciiDomain
         then option_map IPv4 (ipv4_parse asciiDomain)
         else Some (Domain asciiDomain)
  else option_map HostExt (host_ext input).

(** *** The basic URL parser, state by state *)

Definition is_slash (c : ascii) : bool := one_of "/\" c.
Definition ends_authority (c : ascii) : bool := one_of "/\?#" c.

(** Scheme start state and scheme state: the lower-cased scheme and the text
    after the colon. *)
Definition parse_scheme (input : string) : option (string * string) :=
  match span_until (Ascii.eqb ":") input with
  | (String c buffer, String _ rest) =>
      if is_alpha c
         && forallb_str (fun x => is_alpha x || is_digit x || one_of "+-." x) buffer
      then Some (lower (String c buffer), rest)
      else None
  | _ => None
  end.

(** Special authority slashes and ignore-slashes states. *)
Fixpoint skip_slashes (s : string) : string :=
  match s with
  | String c s' => if is_slash c then skip_slashes s' else s
  | EmptyString => s
  end.

(** Authority state: the credentials are what precedes the last [@]. *)
Definition parse_credentials (userinfo : string) : string * string :=
  match span_until (Ascii.eqb ":") userinfo with
  | (name, String _ pass) =>
      (percent_encode userinfo_set name, percent_encode userinfo_set pass)
  | (name, EmptyString) => (percent_encode userinfo_set name, EmptyString)
  end.

(** Host state: the buffer up to the first colon outside brackets, and the
    port text when there is such a colon. *)
Fixpoint split_port (insideBrackets : bool) (s : string) : string * option string :=
  match s with
  | EmptyString => (EmptyString, None)
  | String c s' =>
      if Ascii.eqb c ":" && negb insideBrackets then (EmptyString, Some s')
      else
        let inside := if Ascii.eqb c "[" then true
                      else if Ascii.eqb c "]" then false else insideBrackets in
        let (h, p) := split_port inside s' in (String c h, p)
  end.

Definition default_port (scheme : string) : N :=
  if String.eqb scheme "http" then 80 else 443.

(** Port state: [Some None] keeps the port null. *)
Definition parse_port (scheme buffer : string) : option (option N) :=
  if negb (forallb_str is_digit buffer) then None
  else match buffer with
       | EmptyString => Some None
       | _ =>
           let port := number_value 10 0 buffer in
           if (65535 <? port)%N then None
           else if (port =? default_port scheme)%N then Some None
           else Some (Some port)
       end.

Definition is_single_dot (buffer : string) : bool :=
  String.eqb buffer "." || String.eqb (lower buffer) "%2e".

Definition is_double_dot (buffer : string) : bool :=
  let b := lower buffer in
  String.eqb b ".." || String.eqb b ".%2e"
  || String.eqb b "%2e." || String.eqb b "%2e%2e".

Definition shorten (path : list string) : list string := removelast path.

(** What the path state does with its buffer at the end of a segment; [slash]
    tells whether the segment ended at a slash. *)
Definition end_segment (buffer : string) (path : list string) (slash : bool)
  : list string :=
  if is_double_dot buffer then
    if slash then shorten path else shorten path ++ [EmptyString]
  else if is_single_dot buffer then
    if slash then path else path ++ [EmptyString]
  else path ++ [buffer].

(** Path state: the path and the unread text, which is empty or starts with
    [?] or [#]. *)
Fixpoint path_state (s buffer : string) (path : list string) : list string * string :=
  match s with
  | EmptyString => (end_segment buffer path false, EmptyString)
  | String c s' =>
      if is_slash c then path_state s' EmptyString (end_segment buffer path true)
      else if one_of "?#" c then (end_segment buffer path false, s)
      else path_state s'
             (buffer ++ percent_encode path_set (String c EmptyString)) path
  end.

(** Path start state of a special URL. *)
Definition path_start_state (s : string) : list string * string :=
  match s with
  | String c s' => if is_slash c then path_state s' EmptyString []
                   else path_state s EmptyString []
  | EmptyString => path_state s EmptyString []
  end.

(** Query state and fragment state. *)
Definition query_fragment (s : string) : option string * option string :=
  let frag (t : string) :=
    match t with
    | String _ f => Some (percent_encode fragment_set f)
    | EmptyString => None
    end in
  match s with
  | String "?" s' =>
      let (q, t) := span_until (Ascii.eqb "#") s' in
      (Some (percent_encode special_query_set q), frag t)
  | _ => (None, frag s)
  end.

Definition parse_special (scheme rest : string) : option URLRecord :=
  let (authority, remaining) := span_until ends_authority (skip_slashes rest) in
  let '(credentials, hostport) :=
    match split_last "@" authority with
    | Some (userinfo, hp) => (parse_credentials userinfo, Some hp)
    | None => ((EmptyString, EmptyString), None)
    end in
  let hostport' :=
    match hostport with
    | Some EmptyString => None          (* an [@] with nothing after it *)
    | Some hp => Some hp
    | None => Some authority
    end in
  match hostport' with
  | None => None
  | Some hp =>
      let (buffer, portText) := split_port false hp in
      match buffer with
      | EmptyString => None
      | _ =>
          match parse_host buffer with
          | None => None
          | Some h =>
              match parse_port scheme
                      (match portText with Some p => p | None => EmptyString end) with
              | None => None
              | Some port =>
                  let (path, unread) := path_start_state remaining in
                  let (query, fragment) := query_fragment unread in
                  Some (mkURL scheme (fst credentials) (snd credentials)
                          h port path query fragment)
              end
          end
      end
  end.

Definition is_c0_or_space (c : ascii) : bool := (code c <=? 32)%N.
Definition is_tab_or_newline (c : ascii) : bool :=
  ((code c =? 9) || (code c =? 10) || (code c =? 13))%N.

Fixpoint strip_leading (s : string) : string :=
  match s with
  | String c s' => if is_c0_or_space c then strip_leading s' else s
  | EmptyString => s
  end.

Fixpoint strip_trailing (s : string) : string :=
  match s with
  | EmptyString => EmptyString
  | String c s' =>
      match strip_trailing s' with
      | EmptyString => if is_c0_or_space c then EmptyString else String c EmptyString
      | t => String c t
      end
  end.

Fixpoint remove_chars (p : ascii -> bool) (s : string) : string :=
  match s with
  | EmptyString => EmptyString
  | String c s' => if p c then remove_chars p s' else String c (remove_chars p s')
  end.

(** [new URL(input)]: a record, or a [TypeError]. *)
Definition URL_new (input : string) : Completion URLRecord :=
  let input := remove_chars is_tab_or_newline (strip_trailing (strip_leading input)) in
  match parse_scheme input with
  | None => Throw invalid_url
  | Some (scheme, rest) =>
      if String.eqb scheme "http" || String.eqb scheme "https" then
        match parse_special scheme rest with
        | Some url => Normal url
        | None => Throw invalid_url
        end
      else URL_other_scheme input
  end.

(** The [host] getter. *)
Definition URL_host (url : URLRecord) : string :=
  match port url with
  | None => serialize_host (host url)
  | Some p => serialize_host (host url) ++ ":" ++ N_to_string p
  end.

Definition with_host (url : URLRecord) (h : Host) : URLRecord :=
  mkURL (scheme url) (username url) (password url) h (port url)
        (path url) (query url) (fragment url).

Definition with_port (url : URLRecord) (p : option N) : URLRecord :=
  mkURL (scheme url) (username url) (password url) (host url) p
        (path url) (query url) (fragment url).

(** The [host] setter: the basic URL parser entered at the host state with a
    state override.  A value the parser rejects leaves the URL as it was. *)
Definition URL_set_host (url : URLRecord) (value : string) : URLRecord :=
  let value := remove_chars is_tab_or_newline value in
  let (hostport, _) := span_until ends_authority value in
  let (buffer, portText) := split_port false hostport in
  match buffer with
  | EmptyString => url
  | _ =>
      match parse_host buffer with
      | None => url
      | Some h =>
          let url' := with_host url h in
          match portText with
          | None => url'
          | Some p =>
              let (digits, _) := span_until (fun c => negb (is_digit c)) p in
              match digits with
              | EmptyString => url'
              | _ =>
                  match parse_port (scheme url) digits with
                  | Some port => with_port url' port
                  | None => url'
                  end
              end
          end
      end
  end.

(** The URL serialiser ([toString()], [href], the template literal), in three
    parts: scheme and credentials, host, and the rest. *)
Definition serialize_before_host (url : URLRecord) : string :=
  scheme url ++ "://"
  ++ (if String.eqb (username url) "" && String.eqb (password url) "" then ""
      else username url
           ++ (if String.eqb (password url) "" then "" else ":" ++ password url)
           ++ "@").

Definition serialize_after_host (url : URLRecord) : string :=
  (match port url with Some p => ":" ++ N_to_string p | None => "" end)
  ++ String.concat "" (map (fun segment => "/" ++ segment) (path url))
  ++ (match query url with Some q => "?" ++ q | None => "" end)
  ++ (match fragment url with Some f => "#" ++ f | None => "" end).

Definition URL_toString (url : URLRecord) : string :=
  serialize_before_host url ++ serialize_host (host url) ++ serialize_after_host url.

(** ** The repository's code: the current [url.ts] *)

Definition maybeReplaceUrl (url0 : string) : Completion string :=
  url <- URL_new url0 ;;
  if endsWith (URL_host url) "twitter.com" then
    let url := URL_set_host url "nitter.net" in
    Normal (URL_toString url ++ " ([source](" ++ url0 ++ "))")
  else if endsWith (URL_host url) "medium.com" then
    let url := URL_set_host url "scribe.rip" in
    Normal (URL_toString url ++ " ([source](" ++ url0 ++ "))")
  else
    (* Return untouched *)
    Normal url0.

Definition substituteUrls (text : string) : Completion string :=
  replace text URL_REGEX maybeReplaceUrl.

End Engine.

(** ** Earlier versions of [url.ts] kept in the repository *)

(** The first version: Twitter only, the host compared with two names, and
    every candidate replaced by its serialised URL. *)
Module UrlV1.
Section Code.
Context {platform : Platform}.

Definition twitterUrlToNitterUrl (url0 : string) : Completion URLRecord :=
  url <- URL_new url0 ;;
  if String.eqb (URL_host url) "twitter.com"
     || String.eqb (URL_host url) "mobile.twitter.com"
  then Normal (URL_set_host url "nitter.net")
  else Normal url.

Definition twitterToNitter (text : string) : Completion string :=
  replace text URL_REGEX
    (fun url => u <- twitterUrlToNitterUrl url ;; Normal (URL_toString u)).

End Code.
End UrlV1.

(** The second version: one function per mirror, the host tested with
    [endsWith], and still every candidate serialised. *)
Module UrlV2.
Section Code.
Context {platform : Platform}.

Definition substituteUrls (text : string) (fn : string -> Completion URLRecord)
  : Completion string :=
  replace text URL_REGEX (fun url => u <- fn url ;; Normal (URL_toString u)).

Definition twitterUrlToNitterUrl (url0 : string) : Completion URLRecord :=
  url <- URL_new url0 ;;
  if endsWith (URL_host url) "twitter.com"
  then Normal (URL_set_host url "nitter.net")
  else Normal url.

Definition mediumUrlToScribeUrl (url0 : string) : Completion URLRecord :=
  url <- URL_new url0 ;;
  if endsWith (URL_host url) "medium.com"
  then Normal (URL_set_host url "scribe.rip")
  else Normal url.

Definition twitterToNitter (text : string) : Completion string :=
  substituteUrls text twitterUrlToNitterUrl.

Definition mediumToScribe (text : string) : Completion string :=
  substituteUrls text mediumUrlToScribeUrl.

End Code.
End UrlV2.

(** A runtime that rejects the hosts and schemes left open above; the inputs
    evaluated in the examples never reach either. *)
Definition bare : Platform :=
  {| host_ext := fun _ => None;
     URL_other_scheme := fun _ => Throw invalid_url |}.

Definition run (text : string) : Completion string :=
  @substituteUrls bare text.

(** ** What the pattern denotes *)

(** Zero or more non-empty iterations. *)
Inductive star (L : string -> Prop) : string -> Prop :=
| star_done : star L ""
| star_more (a b : string) : L a -> a <> "" -> star L b -> star L (a ++ b).

Fixpoint lang (r : regex) (w : string) : Prop :=
  match r with
  | Lit c => w = String c ""
  | Class p => exists c, p c = true /\ w = String c ""
  | Cat r1 r2 => exists a b, w = a ++ b /\ lang r1 a /\ lang r2 b
  | Quest r1 => w = "" \/ lang r1 w
  | Rep1 r1 => exists a b, w = a ++ b /\ lang r1 a /\ star (lang r1) b
  end.

(** A matcher is sound for a language when every success splits the input
    into a word of the language and a rest the continuation accepts. *)
Definition sound_for (m : Cont -> Cont) (L : string -> Prop) : Prop :=
  forall k s x, m k s = Some x ->
    exists a b, s = a ++ b /\ L a /\ k b = Some x.


(** A matcher is complete for a language when it succeeds on every input
    that starts with a word of the language followed by a rest the
    continuation accepts. *)
Definition complete_for (m : Cont -> Cont) (L : string -> Prop) : Prop :=
  forall k a b x, L a -> k b = Some x -> exists y, m k (a ++ b) = Some y.

(** ** Texts as gaps and spans *)

(** A text laid out as a gap, a piece, a gap, a piece, ..., and a tail. *)
Fixpoint weave (gaps pieces : list string) (tail : string) : string :=
  match gaps, pieces with
  | g :: gaps', x :: pieces' => g ++ x ++ weave gaps' pieces' tail
  | _, _ => tail
  end.

(** The index at which each piece of that layout starts, the layout itself
    starting at index [from]. *)
Fixpoint starts (from : nat) (gaps pieces : list string) : list nat :=
  match gaps, pieces with
  | g :: gaps', x :: pieces' =>
      (from + length g) :: starts (from + length g + length x) gaps' pieces'
  | _, _ => []
  end.

(** ** The host test in the specification's words *)

(** "A host equals a configured suffix or ends with a dot followed by the
    suffix." *)
Definition spec_host_match (host suffix : string) : bool :=
  String.eqb host suffix || endsWith host ("." ++ suffix).

Definition source_note (url0 : string) : string := " ([source](" ++ url0 ++ "))".

(** A scheme written in another case than the lower-case one. *)
Definition is_scheme_variant (p : string) : Prop :=
  (lower p = "http://" \/ lower p = "https://") /\ p <> lower p.

Definition parses {platform : Platform} (candidate : string) : Prop :=
  exists url, URL_new candidate = Normal url.

(** The two branches of [maybeReplaceUrl]: the name tested for and the host
    assigned. *)
Definition mirror_of (suffix mirror : string) : Prop :=
  (suffix = "twitter.com" /\ mirror = "nitter.net")
  \/ (suffix = "medium.com" /\ mirror = "scribe.rip").

Definition no_colon (s : string) : bool :=
  forallb_str (fun c => negb (Ascii.eqb c ":")) s.

(** A dot that is neither the first nor the last character. *)
Fixpoint dot_before_last (s : string) : bool :=
  match s with
  | String c ((String _ _) as s') => Ascii.eqb c "." || dot_before_last s'
  | _ => false
  end.

Definition internal_dot (h : string) : bool :=
  match h with
  | String _ h' => dot_before_last h'
  | EmptyString => false
  end.

(** The text after a host: nothing, or a character that cannot extend it. *)
Definition ends_host_run (t : string) : bool :=
  match t with
  | String c _ => negb (host_class c)
  | EmptyString => true
  end.

(** The text after a candidate: nothing, or a character outside the last
    class of the pattern. *)
Definition ends_url_run (t : string) : bool :=
  match t with
  | String c _ => negb (tail_class c)
  | EmptyString => true
  end.

(** [m] occurs in [s]. *)
Definition occurs_in (m s : string) : Prop := exists a b, s = a ++ m ++ b.

(** [URL_REGEX] read as everything before its last class, then that class. *)
Definition URL_REGEX_front : regex :=
  lits "http" (Cat (Quest (Lit "s")) (lits ":/" (Cat (Lit "/")
    (Cat (Rep1 (Class host_class))
         (Rep1 (Cat (Lit ".") (Rep1 (Class host_class)))))))).

(** ** The webhook ([src/index.tsx]) *)

(** A form entry is a string or a file. *)
Inductive FormDataEntryValue : Type :=
| EntryString (value : string)
| EntryFile (filename : string).

(** What the handler reads of a request: its headers, and its body decoded
    as form data (decoding can fail). *)
Record Request : Type := mkRequest {
  headers_get : string -> option string;
  formData : Completion (list (string * FormDataEntryValue))
}.

Record RequestError : Type := mkRequestError {
  error_message : string;
  error_status : N
}.

(** A JSON response: the status and the members of the object, in order. *)
Record Response : Type := mkResponse {
  response_status : N;
  response_body : list (string * string)
}.

Definition json (body : list (string * string)) (status : N) : Response :=
  mkResponse status body.

(** [formData.get(name)]: the first entry of that name, or null. *)
Fixpoint FormData_get (entries : list (string * FormDataEntryValue)) (name : string)
  : option FormDataEntryValue :=
  match entries with
  | [] => None
  | (n, v) :: entries' =>
      if String.eqb n name then Some v else FormData_get entries' name
  end.

(** [\s]: the ASCII white space and line terminators, and, in the UTF-8 bytes
    of the text, U+00A0, U+1680, U+2000 to U+200A, U+2028, U+2029, U+202F,
    U+205F, U+3000 and U+FEFF. *)
Definition is_ascii_space (c : ascii) : bool :=
  in_range 9 13 c || (code c =? 32)%N.

Definition is_space_3 (c1 c2 c3 : ascii) : bool :=
  ((code c1 =? 225) && (code c2 =? 154) && (code c3 =? 128)
   || (code c1 =? 226) && (code c2 =? 128)
      && (in_range 128 138 c3 || in_range 168 169 c3 || (code c3 =? 175))
   || (code c1 =? 226) && (code c2 =? 129) && (code c3 =? 159)
   || (code c1 =? 227) && (code c2 =? 128) && (code c3 =? 128)
   || (code c1 =? 239) && (code c2 =? 187) && (code c3 =? 191))%N.

(** [s.match(/^\s*$/)] is not null. *)
Fixpoint is_blank (s : string) : bool :=
  match s with
  | EmptyString => true
  | String c1 s1 =>
      if is_ascii_space c1 then is_blank s1
      else
        match s1 with
        | EmptyString => false
        | String c2 s2 =>
            if ((code c1 =? 194) && (code c2 =? 160))%N then is_blank s2
            else
              match s2 with
              | EmptyString => false
              | String c3 s3 =>
                  if is_space_3 c1 c2 c3 then is_blank s3 else false
              end
        end
  end.

(** What the handler takes from its surroundings: the request validation of
    the web framework, called with the handler's fixed schema, and the
    process environment. *)
Class Server : Type := {
  validateRequest : Request -> option RequestError;
  env_get : string -> option string
}.

Module Index.
Section Code.
Context {platform : Platform} {server : Server}.

Definition verifyToken (request : Request) : bool :=
  let TOKEN :=
    match env_get "MM_SLASH_TOKEN" with
    | Some t => t
    | None => "undefined"       (* the text of [undefined] in a concatenation *)
    end in
  match headers_get request "Authorization" with
  | Some authorization => String.eqb authorization ("Token " ++ TOKEN)
  | None => false
  end.

Definition nitterSlashCommand (request : Request) : Completion Response :=
  match validateRequest request with
  | Some error =>
      Normal (json [("error", error_message error)] (error_status error))
  | None =>
      (* Check the token *)
      let valid := verifyToken request in
      if negb valid then Normal (json [("error", "Invalid request")] 401)
      else
        entries <- formData request ;;
        match FormData_get entries "text" with
        | Some (EntryString formText) =>
            if negb (is_blank formText) then
              nitterText <- UrlV1.twitterToNitter formText ;;
              Normal (json [("response_type", "in_channel");
                            ("text", nitterText)] 200)
            else
              Normal (json [("response_type", "ephemeral");
                            ("text", "You need to supply a URL")] 200)
        | _ =>
            Normal (json [("response_type", "ephemeral");
                          ("text", "You need to supply a URL")] 200)
        end
  end.

End Code.
End Index.

(** A printable ASCII character other than the space. *)
Definition is_visible (c : ascii) : bool := in_range 33 126 c.

(** The Authorization header [verifyToken] accepts. *)
Definition expected_authorization {server : Server} : string :=
  "Token " ++ match env_get "MM_SLASH_TOKEN" with
              | Some t => t
              | None => "undefined"
              end.

Definition in_channel (text : string) : Response :=
  json [("response_type", "in_channel"); ("text", text)] 200.

Definition ephemeral : Response :=
  json [("response_type", "ephemeral"); ("text", "You need to supply a URL")] 200.

(** Surroundings for the examples: a framework that accepts the request, with
    the token set, and with the token missing from the environment. *)
Definition server_with_token (token : string) : Server :=
  {| validateRequest := fun _ => None;
     env_get := fun name =>
       if String.eqb name "MM_SLASH_TOKEN" then Some token else None |}.

Definition server_without_token : Server :=
  {| validateRequest := fun _ => None; env_get := fun _ => None |}.

Definition form_request (authorization text : string) : Request :=
  mkRequest
    (fun name => if String.eqb name "Authorization" then Some authorization else None)
    (Normal [("text", EntryString text)]).

(** ** The replace loop without indices *)

(** The text before a candidate: nothing, or a text whose last character is
    outside the last class of the pattern. *)
Fixpoint closes_url_run (s : string) : bool :=
  match s with
  | EmptyString => true
  | String c EmptyString => negb (tail_class c)
  | String _ s' => closes_url_run s'
  end.

(** [replace] for a pattern that matches no empty string, told on the unread
    text: copy up to the next match, call the callback, go on after the
    match. *)
Fixpoint rewrite_loop (fuel : nat) (r : regex)
  (replacer : string -> Completion string) (s : string) : Completion string :=
  match fuel with
  | 0 => Normal s
  | S fuel' =>
      match exec r s 0 with
      | None => Normal s
      | Some (position, m, rest) =>
          replacement <- replacer m ;;
          out <- rewrite_loop fuel' r replacer rest ;;
          Normal (take position s ++ replacement ++ out)
      end
  end.

(** ** Candidates the URL parser leaves as they are written *)

(** The path of the text after the host, up to the first [?] or [#], and
    what follows it. *)
Definition path_text (t : string) : string := fst (span_until (one_of "?#") t).
Definition after_path (t : string) : string := snd (span_until (one_of "?#") t).

(** The query: what stands between a [?] that ends the path and the next
    [#]. *)
Definition query_text (t : string) : string :=
  match after_path t with
  | String c s' => if Ascii.eqb c "?" then fst (span_until (Ascii.eqb "#") s') else ""
  | EmptyString => ""
  end.

Definition dot_free (segment : string) : bool :=
  negb (is_single_dot segment) && negb (is_double_dot segment).

(** A host written as the parser would print it: a non-empty lower-case
    ASCII domain of host characters, no Punycode label, no number last. *)
Definition plain_lower_host (h : string) : bool :=
  negb (String.eqb h "") && forallb_str host_class h && String.eqb (lower h) h
  && negb (has_punycode_label h) && negb (ends_in_number h).

(** The text after the slash that ends the host, written as the parser
    would print it: URL characters only, no dot segment in the path, no
    apostrophe in the query. *)
Definition verbatim_tail (t : string) : bool :=
  forallb_str tail_class t
  && forallb dot_free (split_on "/" (path_text t))
  && forallb_str (fun c => negb (Ascii.eqb c "'")) (query_text t).

(** The segments of a path whose first segment has [buffer] already read. *)
Definition segments_of (buffer p : string) : list string :=
  match split_on "/" p with
  | x :: xs => (buffer ++ x) :: xs
  | [] => [buffer]
  end.

(** The serialised path. *)
Definition serialize_path (segments : list string) : string :=
  String.concat "" (map (fun segment => "/" ++ segment) segments).

(** The serialised query and fragment. *)
Definition serialize_query_fragment (qf : option string * option string) : string :=
  (match fst qf with Some q => "?" ++ q | None => "" end)
  ++ (match snd qf with Some f => "#" ++ f | None => "" end).

(** ** Proof steps used more than once *)

(** Expose the next character of a string whose lower-casing is known. *)
Ltac peel_lower H :=
  match type of H with
  | lower ?p = String _ _ =>
      destruct p as [|? p]; [discriminate H|];
      cbn [lower] in H; let Hc := fresh "Hc" in injection H as Hc H
  end.

(** A character whose lower-casing is not [h] is not [h]. *)
Ltac not_h :=
  let E := fresh in
  intros E; subst;
  match goal with
  | H : lower_char "h"%char = _ |- _ => vm_compute in H; discriminate H
  end.

(** Turn the character tests of a goal into arithmetic on the codes. *)
Ltac bool_to_prop :=
  unfold is_visible, is_ascii_space, is_space_3, in_range in *;
  repeat match goal with
         | |- context [code ?c] => generalize dependent (code c); intros
         end;
  repeat (progress
            (rewrite ?negb_true_iff, ?andb_false_iff, ?andb_true_iff,
               ?orb_true_iff, ?N.leb_le, ?N.leb_gt, ?N.eqb_eq in *)).

(** Settle a statement about one character by going through all of them. *)
Ltac by_all_chars c :=
  destruct c as [[] [] [] [] [] [] [] []]; vm_compute;
  try reflexivity; intros; try reflexivity; try congruence; auto.

(** * Verification *)

Example scan_1 :
  results URL_REGEX "see https://twitter.com/a and http://a.b:x ok"
  = [(4, "https://twitter.com/a"); (30, "http://a.b:x")].
Proof. vm_compute. reflexivity. Qed.

Example scan_2 : results URL_REGEX "https://twitter and https://a.b" = [].
Proof. vm_compute. reflexivity. Qed.

(** The repository's tests, evaluated. *)

Example test_twitter_desktop :
  run "https://twitter.com/wezm"
  = Normal "https://nitter.net/wezm ([source](https://twitter.com/wezm))".
Proof. vm_compute. reflexivity. Qed.

Example test_twitter_invalid : run "https://twitter" = Normal "https://twitter".
Proof. vm_compute. reflexivity. Qed.

Example test_mixed :
  run "Here are some things from twitter.com https://twitter.com/wezm/status/1323096439602339840?s=20&t=Zper7b85RVlpWoTKKJDkbg and Medium https://jxxcarlson.medium.com/lambda-calculus-an-elm-cli-fd537071db2b"
  = Normal "Here are some things from twitter.com https://nitter.net/wezm/status/1323096439602339840?s=20&t=Zper7b85RVlpWoTKKJDkbg ([source](https://twitter.com/wezm/status/1323096439602339840?s=20&t=Zper7b85RVlpWoTKKJDkbg)) and Medium https://scribe.rip/lambda-calculus-an-elm-cli-fd537071db2b ([source](https://jxxcarlson.medium.com/lambda-calculus-an-elm-cli-fd537071db2b))".
Proof. vm_compute. reflexivity. Qed.

Example test_v1_mobile :
  @UrlV1.twitterToNitter bare "https://mobile.twitter.com/wezm/status/1323096439602339840?s=20&t=Zper7b85RVlpWoTKKJDkbg"
  = Normal "https://nitter.net/wezm/status/1323096439602339840?s=20&t=Zper7b85RVlpWoTKKJDkbg".
Proof. vm_compute. reflexivity. Qed.

Example test_v2_subdomain :
  @UrlV2.mediumToScribe bare "https://jxxcarlson.medium.com/lambda-calculus-an-elm-cli-fd537071db2b"
  = Normal "https://scribe.rip/lambda-calculus-an-elm-cli-fd537071db2b".
Proof. vm_compute. reflexivity. Qed.

(** The first version compares the host with the two names, so a host that
    only ends with the text [twitter.com] is left alone there; it serialises
    every candidate, rewritten or not. *)
Example v1_exact_host :
  @UrlV1.twitterToNitter bare "https://eviltwitter.com/x"
  = Normal "https://eviltwitter.com/x"
  /\ @UrlV1.twitterToNitter bare "https://example.com"
     = Normal "https://example.com/".
Proof. split; vm_compute; reflexivity. Qed.

(** ** Strings *)

Lemma str_app_nil_r (s : string) : s ++ "" = s.
Proof. induction s as [|c s IH]; simpl; [reflexivity | now rewrite IH]. Qed.

Lemma str_app_assoc (a b c : string) : (a ++ b) ++ c = a ++ b ++ c.
Proof. induction a as [|x a IH]; simpl; [reflexivity | now rewrite IH]. Qed.

Lemma str_length_app (a b : string) : length (a ++ b) = length a + length b.
Proof. induction a as [|x a IH]; simpl; [reflexivity | now rewrite IH]. Qed.

Lemma take_app_exact (a b : string) : take (length a) (a ++ b) = a.
Proof. induction a as [|x a IH]; simpl; [now destruct b | now rewrite IH]. Qed.

Lemma drop_app_exact (a b : string) : drop (length a) (a ++ b) = b.
Proof. induction a as [|x a IH]; simpl; [now destruct b | exact IH]. Qed.

Lemma drop_zero (s : string) : drop 0 s = s.
Proof. now destruct s. Qed.

Lemma substring_middle (pre g rest : string) :
  js_substring (pre ++ g ++ rest) (length pre) (length pre + length g) = g.
Proof.
  unfold js_substring. rewrite drop_app_exact.
  replace (length pre + length g - length pre) with (length g) by lia.
  apply take_app_exact.
Qed.

Lemma str_app_inv_head (a b c : string) : a ++ b = a ++ c -> b = c.
Proof. induction a as [|x a IH]; simpl; intros H; [exact H | injection H; auto]. Qed.

(** ** Soundness of the matcher *)

Lemma repeat_matcher_sound (m : Cont -> Cont) (L : string -> Prop) :
  sound_for m L ->
  forall fuel k s x, repeat_matcher m k fuel s = Some x ->
    exists a b, s = a ++ b /\ star L a /\ k b = Some x.
Proof.
  intros Hm fuel. induction fuel as [|fuel IH]; intros k s x H; simpl in H.
  - exists "", s. repeat split; [constructor | exact H].
  - destruct (m _ s) as [y|] eqn:E.
    + injection H as ->. apply Hm in E. destruct E as (a & b & -> & La & Hk).
      destruct (length b <? length (a ++ b)) eqn:Hlt; [|discriminate].
      apply IH in Hk. destruct Hk as (a' & b' & -> & Sa' & Hk).
      exists (a ++ a'), b'. rewrite str_app_assoc. repeat split; [|exact Hk].
      constructor; [exact La | | exact Sa'].
      intros ->. simpl in Hlt. apply Nat.ltb_lt in Hlt. lia.
    + exists "", s. repeat split; [constructor | exact H].
Qed.

Lemma rmatch_sound (r : regex) : sound_for (rmatch r) (lang r).
Proof.
  induction r as [c | p | r1 IH1 r2 IH2 | r1 IH1 | r1 IH1]; intros k s x H; simpl in H.
  - destruct s as [|a s']; [discriminate|].
    destruct (Ascii.eqb_spec a c) as [->|]; [|discriminate].
    exists (String c ""), s'. now repeat split.
  - destruct s as [|a s']; [discriminate|].
    destruct (p a) eqn:Hp; [|discriminate].
    exists (String a ""), s'. repeat split; [|exact H]. now exists a.
  - apply IH1 in H. destruct H as (a & b & -> & La & H).
    apply IH2 in H. destruct H as (a' & b' & -> & La' & H).
    exists (a ++ a'), b'. rewrite str_app_assoc. repeat split; [|exact H].
    now exists a, a'.
  - destruct (rmatch r1 _ s) as [y|] eqn:E.
    + injection H as ->. apply IH1 in E. destruct E as (a & b & -> & La & Hk).
      destruct (length b <? length (a ++ b)); [|discriminate].
      exists a, b. repeat split; [now right | exact Hk].
    + exists "", s. repeat split; [now left | exact H].
  - apply IH1 in H. destruct H as (a & b & -> & La & H).
    apply (repeat_matcher_sound _ _ IH1) in H. destruct H as (a' & b' & -> & Sa' & H).
    exists (a ++ a'), b'. rewrite str_app_assoc. repeat split; [|exact H].
    now exists a, a'.
Qed.

(** A success of the scanner at the head of [s]: [s] is the match followed by
    the rest, and the match is a word of the pattern. *)
Lemma match_here_sound (r : regex) (s m rest : string) :
  match_here r s = Some (m, rest) -> s = m ++ rest /\ lang r m.
Proof.
  unfold match_here. destruct (rmatch r Some s) as [x|] eqn:E; [|discriminate].
  intros H. injection H as <- <-.
  apply rmatch_sound in E. destruct E as (a & b & -> & La & Hb).
  injection Hb as ->. rewrite str_length_app.
  replace (length a + length x - length x) with (length a) by lia.
  now rewrite take_app_exact.
Qed.

(** ** Completeness of the matcher *)

Lemma repeat_matcher_complete (m : Cont -> Cont) (L : string -> Prop) :
  complete_for m L ->
  forall w, star L w ->
  forall k b x fuel, k b = Some x -> length (w ++ b) <= fuel ->
    exists y, repeat_matcher m k fuel (w ++ b) = Some y.
Proof.
  intros Hm w Hw. induction Hw as [|a w La Ha Hw IH]; intros k b x fuel Hk Hfuel.
  - simpl. destruct fuel as [|fuel]; simpl; [eauto|].
    destruct (m _ b); eauto.
  - rewrite str_app_assoc in *. rewrite str_length_app in Hfuel.
    assert (0 < length a) by (destruct a; [congruence | simpl; lia]).
    destruct fuel as [|fuel]; [lia|]. simpl.
    destruct (IH k b x fuel Hk) as (y & Hy); [lia|].
    destruct (Hm (fun s' => if length s' <? length (a ++ w ++ b)
                            then repeat_matcher m k fuel s' else None)
                 a (w ++ b) y La) as (z & Hz).
    + replace (length (w ++ b) <? length (a ++ w ++ b)) with true; [exact Hy|].
      symmetry. apply Nat.ltb_lt. rewrite (str_length_app a). lia.
    + rewrite Hz. eauto.
Qed.

Lemma rmatch_complete (r : regex) : complete_for (rmatch r) (lang r).
Proof.
  induction r as [c | p | r1 IH1 r2 IH2 | r1 IH1 | r1 IH1];
    intros k a b x La Hk; simpl in La.
  - subst a. simpl. rewrite Ascii.eqb_refl. eauto.
  - destruct La as (c & Hc & ->). simpl. rewrite Hc. eauto.
  - destruct La as (a1 & a2 & -> & L1 & L2). rewrite str_app_assoc. simpl.
    destruct (IH2 k a2 b x L2 Hk) as (y & Hy).
    apply (IH1 (rmatch r2 k) a1 (a2 ++ b) y L1 Hy).
  - simpl. destruct La as [-> | La].
    + simpl. destruct (rmatch r1 _ b); eauto.
    + destruct a as [|c a].
      * simpl. destruct (rmatch r1 _ b); eauto.
      * destruct (IH1 (fun s' => if length s' <? length (String c a ++ b)
                                 then k s' else None)
                      (String c a) b x La) as (y & Hy).
        -- replace (length b <? length (String c a ++ b)) with true; [exact Hk|].
           symmetry. apply Nat.ltb_lt. rewrite str_length_app. simpl. lia.
        -- rewrite Hy. eauto.
  - destruct La as (a1 & w & -> & L1 & Hw). rewrite str_app_assoc. simpl.
    destruct (repeat_matcher_complete _ _ IH1 w Hw k b x (length (w ++ b)) Hk)
      as (y & Hy); [lia|].
    apply (IH1 (fun s' => repeat_matcher (rmatch r1) k (length s') s')
               a1 (w ++ b) y L1 Hy).
Qed.

(** Where a word of the pattern starts, the scanner matches. *)
Lemma match_here_complete (r : regex) (m b : string) :
  lang r m -> match_here r (m ++ b) <> None.
Proof.
  intros L. unfold match_here.
  destruct (rmatch_complete r Some m b b L eq_refl) as (y & ->). discriminate.
Qed.

(** ** The shape of a candidate *)

Lemma star_class_all (p : ascii -> bool) (w : string) :
  star (lang (Class p)) w -> forallb_str p w = true.
Proof.
  induction 1 as [|a b (c & Hc & ->) _ _ IH]; simpl; [reflexivity|].
  now rewrite Hc, IH.
Qed.

Lemma lang_class_plus (p : ascii -> bool) (w : string) :
  lang (Rep1 (Class p)) w -> w <> "" /\ forallb_str p w = true.
Proof.
  intros (a & b & -> & (c & Hc & ->) & Hs). simpl. split; [discriminate|].
  now rewrite Hc, (star_class_all _ _ Hs).
Qed.

Lemma forallb_str_app (p : ascii -> bool) (a b : string) :
  forallb_str p (a ++ b) = forallb_str p a && forallb_str p b.
Proof.
  induction a as [|c a IH]; simpl; [reflexivity|].
  now rewrite IH, andb_assoc.
Qed.

Lemma forallb_str_weaken (p q : ascii -> bool) (s : string) :
  (forall c, p c = true -> q c = true) ->
  forallb_str p s = true -> forallb_str q s = true.
Proof.
  intros Hpq. induction s as [|c s IH]; simpl; [reflexivity|].
  intros H. apply andb_true_iff in H. destruct H as [Hc Hs].
  now rewrite (Hpq _ Hc), IH.
Qed.

Lemma host_class_tail_class (c : ascii) : host_class c = true -> tail_class c = true.
Proof.
  unfold host_class, tail_class. intros H.
  apply orb_true_iff in H. destruct H as [-> | H]; [reflexivity|].
  simpl in H. apply orb_true_iff. right. simpl.
  destruct (Ascii.eqb c ".") eqn:E1; [now rewrite !orb_true_r|].
  destruct (Ascii.eqb c "-") eqn:E2; [reflexivity|]. simpl in H. discriminate.
Qed.

Definition is_scheme_prefix (sch : string) : Prop :=
  sch = "http://" \/ sch = "https://".

(** Every word of [URL_REGEX]: a lower-case scheme, a non-empty run of host
    characters, a dot, another non-empty run, and at least one more
    character. *)
Lemma candidate_shape (m : string) :
  lang URL_REGEX m ->
  exists sch a b t,
    is_scheme_prefix sch /\ m = sch ++ a ++ String "." (b ++ t)
    /\ a <> "" /\ forallb_str host_class a = true
    /\ b <> "" /\ forallb_str host_class b = true
    /\ t <> "" /\ forallb_str tail_class t = true.
Proof.
  unfold URL_REGEX. cbn [lits lang].
  intros (h1 & w1 & -> & -> & h2 & w2 & -> & -> & h3 & w3 & -> & -> &
          h4 & w4 & -> & -> & q & w5 & -> & Hq & c1 & w6 & -> & -> &
          c2 & w7 & -> & -> & c3 & w8 & -> & -> & a & w9 & -> & Ha &
          g & tl & -> & Hg & Htl).
  apply lang_class_plus in Ha. destruct Ha as [Ha1 Ha2].
  apply lang_class_plus in Htl. destruct Htl as [Ht1 Ht2].
  destruct Hg as (g1 & g2 & -> & (d & b & -> & -> & Hb) & Hstar).
  apply lang_class_plus in Hb. destruct Hb as [Hb1 Hb2].
  assert (Hg2 : forallb_str tail_class g2 = true).
  { clear - Hstar. induction Hstar as [|x y (d & b & -> & -> & Hb) _ _ IH];
      [reflexivity|].
    apply lang_class_plus in Hb. destruct Hb as [_ Hb].
    simpl. rewrite forallb_str_app, IH, andb_true_r.
    revert Hb; apply forallb_str_weaken; exact host_class_tail_class. }
  exists (if String.eqb q "" then "http://" else "https://"), a, b, (g2 ++ tl).
  assert (Hsch : q = "" \/ q = "s") by (destruct Hq as [->| ->]; auto).
  repeat split; try assumption.
  - destruct Hsch as [-> | ->]; [now left | now right].
  - destruct Hsch as [-> | ->]; simpl; now rewrite !str_app_assoc.
  - destruct g2; simpl; [exact Ht1 | discriminate].
  - now rewrite forallb_str_app, Hg2, Ht2.
Qed.

Lemma candidate_nonempty (m : string) : lang URL_REGEX m -> m <> "".
Proof.
  intros H. apply candidate_shape in H.
  destruct H as (sch & a & b & t & [-> | ->] & -> & _); discriminate.
Qed.

(** ** The scanning loop *)

Lemma exec_sound (r : regex) (s : string) :
  forall i position m rest,
    exec r s i = Some (position, m, rest) ->
    exists g, s = g ++ m ++ rest /\ position = i + length g /\ lang r m.
Proof.
  induction s as [|c s IH]; intros i position m rest H; simpl in H.
  - destruct (match_here r "") as [[m' rest']|] eqn:E; [|discriminate].
    injection H as <- <- <-. apply match_here_sound in E. destruct E as [E L].
    exists "". simpl. repeat split; [exact E | lia | exact L].
  - destruct (match_here r (String c s)) as [[m' rest']|] eqn:E.
    + injection H as <- <- <-. apply match_here_sound in E. destruct E as [E L].
      exists "". simpl. repeat split; [exact E | lia | exact L].
    + apply IH in H. destruct H as (g & -> & -> & L).
      exists (String c g). simpl. repeat split; [lia | exact L].
Qed.

Lemma exec_none (r : regex) (s : string) :
  (forall a m b, s = a ++ m ++ b -> ~ lang r m) ->
  forall i, exec r s i = None.
Proof.
  induction s as [|c s IH]; intros Hno i; simpl.
  - destruct (match_here r "") as [[m rest]|] eqn:E; [|reflexivity].
    apply match_here_sound in E. destruct E as [E L].
    exfalso. apply (Hno "" m rest); [exact E | exact L].
  - destruct (match_here r (String c s)) as [[m rest]|] eqn:E.
    + apply match_here_sound in E. destruct E as [E L].
      exfalso. apply (Hno "" m rest); [exact E | exact L].
    + apply IH. intros a m b ->. apply (Hno (String c a) m b). reflexivity.
Qed.

Lemma exec_none_everywhere (r : regex) (s : string) :
  forall i, exec r s i = None ->
  forall a rest, s = a ++ rest -> match_here r rest = None.
Proof.
  induction s as [|c s IH]; intros i H a rest E; simpl in H.
  - destruct a; [|discriminate E]. simpl in E. subst rest.
    now destruct (match_here r "") as [[? ?]|].
  - destruct (match_here r (String c s)) as [[m' rest']|] eqn:E'; [discriminate|].
    destruct a as [|c' a]; simpl in E.
    + now subst rest.
    + injection E as _ E. apply (IH _ H a rest E).
Qed.

(** The scanner finds nothing exactly in the texts none of whose substrings
    is a word of the pattern. *)
Lemma exec_none_iff (r : regex) (s : string) (i : nat) :
  exec r s i = None <-> (forall a m b, s = a ++ m ++ b -> ~ lang r m).
Proof.
  split.
  - intros H a m b E L.
    apply (match_here_complete r m b L).
    apply (exec_none_everywhere r s i H a (m ++ b) E).
  - intros H. now apply exec_none.
Qed.

(** ** The replace loop, read as a layout of gaps and spans *)

Section Replace.

Variable r : regex.
Variable replacer : string -> Completion string.
Hypothesis r_nonempty : forall m, lang r m -> m <> "".

Lemma matchAll_step (fuel : nat) (s : string) (i position : nat) (m rest : string) :
  exec r s i = Some (position, m, rest) -> m <> "" ->
  matchAll (S fuel) r s i = (position, m) :: matchAll fuel r rest (position + length m).
Proof.
  intros E Hm. simpl. rewrite E. destruct m; [congruence | reflexivity].
Qed.

Lemma accumulate_weave (fuel : nat) :
  forall s pre, length s < fuel ->
    let ms := matchAll fuel r s (length pre) in
    exists gaps tail,
      List.length gaps = List.length ms
      /\ s = weave gaps (map snd ms) tail
      /\ map fst ms = starts (length pre) gaps (map snd ms)
      /\ (forall acc,
            accumulate (pre ++ s) replacer ms acc (length pre)
            = (rs <- mapM replacer (map snd ms) ;;
               Normal (acc ++ weave gaps rs tail))).
Proof.
  induction fuel as [|fuel IH]; intros s pre Hfuel; [lia|].
  cbn zeta.
  destruct (exec r s (length pre)) as [[[position m] rest]|] eqn:E.
  - pose proof E as E'. apply exec_sound in E'. destruct E' as (g & -> & -> & L).
    pose proof (r_nonempty _ L) as Hm.
    rewrite (matchAll_step fuel _ _ _ _ _ E Hm). clear E.
    assert (Hlen : 0 < length m) by (destruct m; [congruence | simpl; lia]).
    rewrite !str_length_app in Hfuel.
    destruct (IH rest (pre ++ g ++ m)) as (gaps & tail & Hl & Hw & Hs & Hacc).
    { lia. }
    rewrite !str_length_app, Nat.add_assoc in Hl, Hw, Hs, Hacc.
    exists (g :: gaps), tail. cbn [map fst snd List.length weave starts].
    repeat split.
    + now rewrite Hl.
    + now rewrite Hw at 1.
    + now rewrite Hs.
    + intros acc'. cbn [accumulate mapM]. unfold bind at 1 3.
      destruct (replacer m) as [replacement|e]; [|reflexivity].
      replace (length pre <=? length pre + length g) with true
        by (symmetry; apply Nat.leb_le; lia).
      rewrite substring_middle.
      replace (pre ++ g ++ m ++ rest) with ((pre ++ g ++ m) ++ rest)
        by now rewrite !str_app_assoc.
      rewrite Hacc. unfold bind.
      destruct (mapM replacer _) as [rs|e]; [|reflexivity].
      now rewrite !str_app_assoc.
  - simpl matchAll. rewrite E.
    exists [], s. cbn [map List.length weave starts accumulate mapM bind].
    repeat split. intros acc'. now rewrite drop_app_exact.
Qed.

Lemma replace_weave (text : string) :
  let ms := results r text in
  exists gaps tail,
    List.length gaps = List.length ms
    /\ text = weave gaps (map snd ms) tail
    /\ map fst ms = starts 0 gaps (map snd ms)
    /\ replace text r replacer
       = (rs <- mapM replacer (map snd ms) ;; Normal (weave gaps rs tail)).
Proof.
  destruct (accumulate_weave (S (length text)) text "") as
    (gaps & tail & Hl & Hw & Hs & Hacc); [lia|].
  exists gaps, tail. repeat split; try assumption.
  unfold replace. apply (Hacc "").
Qed.

End Replace.

(** ** [endsWith] *)

Lemma take_drop (n : nat) (s : string) : take n s ++ drop n s = s.
Proof.
  revert s. induction n as [|n IH]; intros [|c s]; simpl; try reflexivity.
  now rewrite IH.
Qed.

Lemma endsWith_iff (s x : string) :
  endsWith s x = true <-> exists p, s = p ++ x.
Proof.
  unfold endsWith. split.
  - intros H. apply andb_true_iff in H. destruct H as [_ H].
    apply String.eqb_eq in H. remember (length s - length x) as n eqn:Hn.
    exists (take n s). rewrite <- H. symmetry. apply take_drop.
  - intros (p & ->). rewrite str_length_app. apply andb_true_iff. split.
    + apply Nat.leb_le. lia.
    + replace (length p + length x - length x) with (length p) by lia.
      rewrite drop_app_exact. apply String.eqb_refl.
Qed.

(** The specification's test implies the one the code makes. *)
Lemma spec_host_match_endsWith (host suffix : string) :
  spec_host_match host suffix = true -> endsWith host suffix = true.
Proof.
  unfold spec_host_match. intros H. apply orb_true_iff in H.
  apply endsWith_iff. destruct H as [H | H].
  - apply String.eqb_eq in H. now exists "".
  - apply endsWith_iff in H. destruct H as (p & ->).
    exists (p ++ "."). now rewrite str_app_assoc.
Qed.

Lemma app_same_end (p q a b : string) :
  p ++ a = q ++ b -> length a <= length b -> exists d, b = d ++ a.
Proof.
  revert q. induction p as [|c p IH]; intros q H Hlen.
  - simpl in H. subst a. rewrite str_length_app in Hlen.
    destruct q; [now exists "" | simpl in Hlen; lia].
  - destruct q as [|c' q].
    + simpl in H. exists (String c p). now rewrite <- H.
    + simpl in H. injection H as _ H. now apply (IH q).
Qed.

(** Two suffixes of one string: the shorter is a suffix of the longer. *)
Lemma endsWith_chain (s a b : string) :
  endsWith s a = true -> endsWith s b = true -> length a <= length b ->
  endsWith b a = true.
Proof.
  intros Ha Hb Hlen. apply endsWith_iff in Ha, Hb.
  destruct Ha as (p & Hp), Hb as (q & Hq). apply endsWith_iff.
  apply (app_same_end p q); [congruence | exact Hlen].
Qed.

Lemma medium_not_twitter (h : string) :
  endsWith h "medium.com" = true -> endsWith h "twitter.com" = false.
Proof.
  intros Hm. destruct (endsWith h "twitter.com") eqn:Ht; [|reflexivity].
  assert (H : endsWith "twitter.com" "medium.com" = true)
    by (apply (endsWith_chain h _ _ Hm Ht); simpl; lia).
  discriminate H.
Qed.

(** ** The error monad *)

Lemma mapM_normal_iff {A B : Type} (f : A -> Completion B) (l : list A) :
  (exists bs, mapM f l = Normal bs) <-> Forall (fun a => exists b, f a = Normal b) l.
Proof.
  induction l as [|a l IH]; simpl.
  - split; [constructor | now exists []].
  - split.
    + intros (bs & H). unfold bind in H at 1.
      destruct (f a) as [b|e] eqn:E; [|discriminate].
      unfold bind in H. destruct (mapM f l) as [bs'|e] eqn:E'; [|discriminate].
      constructor; [now exists b | apply IH; now exists bs'].
    + intros H. inversion H as [|? ? (b & Hb) Hl]; subst.
      apply IH in Hl. destruct Hl as (bs & Hbs).
      exists (b :: bs). now rewrite Hb, Hbs.
Qed.

Lemma mapM_first_throw {A B : Type} (f : A -> Completion B) (front : list A) :
  forall a back e,
    Forall (fun x => exists b, f x = Normal b) front -> f a = Throw e ->
    mapM f (front ++ a :: back) = Throw e.
Proof.
  induction front as [|x front IH]; intros a back e Hf Ha; simpl.
  - now rewrite Ha.
  - inversion Hf as [|? ? (b & Hb) Hl]; subst.
    rewrite Hb. simpl. now rewrite (IH a back e Hl Ha).
Qed.

(** ** Where the scanner cannot match *)

Lemma exec_skip (r : regex) (c : ascii) (s : string) (i : nat) :
  match_here r (String c s) = None -> exec r (String c s) i = exec r s (S i).
Proof. intros H. cbn [exec]. now rewrite H. Qed.

Lemma match_here_needs_h (c : ascii) (s : string) :
  c <> "h"%char -> match_here URL_REGEX (String c s) = None.
Proof.
  intros Hc. destruct (match_here URL_REGEX (String c s)) as [[m rest]|] eqn:E;
    [|reflexivity].
  apply match_here_sound in E. destruct E as [E L]. apply candidate_shape in L.
  destruct L as (sch & a & b & t & [-> | ->] & -> & _);
    simpl in E; injection E as -> _; congruence.
Qed.

Lemma no_colon_no_candidate (s : string) :
  no_colon s = true -> forall a m b, s = a ++ m ++ b -> ~ lang URL_REGEX m.
Proof.
  unfold no_colon. intros H a m b -> L.
  rewrite !forallb_str_app in H.
  apply andb_true_iff in H. destruct H as [_ H].
  apply andb_true_iff in H. destruct H as [H _].
  apply candidate_shape in L.
  destruct L as (sch & x & y & t & [-> | ->] & -> & _);
    rewrite forallb_str_app in H; apply andb_true_iff in H;
    destruct H as [H _]; discriminate H.
Qed.

Lemma no_colon_exec (s : string) (i : nat) :
  no_colon s = true -> exec URL_REGEX s i = None.
Proof. intros H. apply exec_none. now apply no_colon_no_candidate. Qed.

Lemma host_word_no_colon (w : string) :
  forallb_str host_class w = true -> no_colon w = true.
Proof.
  apply forallb_str_weaken. intros c Hc.
  destruct (Ascii.eqb_spec c ":") as [->|]; [discriminate Hc | reflexivity].
Qed.

(** A run of host characters at the head of [h ++ t] lies within [h] when
    [t] cannot extend the host. *)
Lemma prefix_in_run (u : string) :
  forall h t v, h ++ t = u ++ v -> forallb_str host_class u = true ->
    ends_host_run t = true -> exists y, h = u ++ y.
Proof.
  induction u as [|c u IH]; intros h t v E Hu Ht.
  - now exists h.
  - simpl in Hu. apply andb_true_iff in Hu. destruct Hu as [Hc Hu].
    destruct h as [|c' h].
    + simpl in E. subst t. simpl in Ht. now rewrite Hc in Ht.
    + simpl in E. injection E as -> E.
      destruct (IH h t v E Hu Ht) as (y & ->). now exists y.
Qed.

Lemma internal_dot_intro (a : string) (c : ascii) (y : string) :
  a <> "" -> internal_dot (a ++ String "." (String c y)) = true.
Proof.
  destruct a as [|c0 a]; [congruence|]. intros _. simpl.
  induction a as [|d a IH]; [reflexivity|].
  cbn [append dot_before_last]. destruct a; cbn [append] in *.
  - rewrite IH. apply orb_true_r.
  - rewrite IH. apply orb_true_r.
Qed.

(** At a scheme followed by a host run without an internal dot, the scanner
    does not match. *)
Lemma scheme_position_no_match (sch h t : string) :
  is_scheme_prefix sch -> internal_dot h = false -> ends_host_run t = true ->
  match_here URL_REGEX (sch ++ h ++ t) = None.
Proof.
  intros Hsch Hdot Ht.
  destruct (match_here URL_REGEX (sch ++ h ++ t)) as [[m rest]|] eqn:E;
    [exfalso | reflexivity].
  apply match_here_sound in E. destruct E as [E L]. apply candidate_shape in L.
  destruct L as (sch' & a & b & t' & Hsch' & -> & Ha & Hha & Hb & Hhb & _).
  assert (E' : h ++ t = a ++ String "." (b ++ t') ++ rest).
  { destruct Hsch as [-> | ->], Hsch' as [-> | ->]; simpl in E;
      try discriminate E.
    - injection E as E. rewrite E. now rewrite str_app_assoc.
    - injection E as E. rewrite E. now rewrite str_app_assoc. }
  destruct b as [|cb b]; [congruence|].
  simpl in Hhb. apply andb_true_iff in Hhb. destruct Hhb as [Hcb _].
  destruct (prefix_in_run (a ++ String "." (String cb "")) h t (b ++ t' ++ rest))
    as (y & Hy).
  - rewrite E'. rewrite !str_app_assoc. simpl. now rewrite !str_app_assoc.
  - rewrite forallb_str_app, Hha. simpl. now rewrite Hcb.
  - exact Ht.
  - rewrite str_app_assoc in Hy. simpl in Hy. subst h.
    rewrite (internal_dot_intro a cb y Ha) in Hdot. discriminate.
Qed.

Lemma scheme_alone_no_match (sch h : string) :
  is_scheme_prefix sch -> internal_dot h = false ->
  match_here URL_REGEX (sch ++ h) = None.
Proof.
  intros Hsch Hdot. rewrite <- (str_app_nil_r h).
  now apply scheme_position_no_match.
Qed.

Lemma scheme_and_dotless_host_exec (sch h : string) :
  is_scheme_prefix sch -> forallb_str host_class h = true ->
  internal_dot h = false -> exec URL_REGEX (sch ++ h) 0 = None.
Proof.
  intros Hsch Hh Hdot.
  pose proof (scheme_alone_no_match sch h Hsch Hdot) as H0.
  destruct Hsch as [-> | ->]; cbn [append] in *;
    rewrite (exec_skip _ _ _ _ H0);
    repeat (rewrite exec_skip by (apply match_here_needs_h; discriminate));
    apply no_colon_exec, host_word_no_colon, Hh.
Qed.

(** A scheme in another case is not a scheme for the scanner. *)
Lemma variant_no_match (p rest : string) :
  is_scheme_variant p -> match_here URL_REGEX (p ++ rest) = None.
Proof.
  intros [Hlow Hneq].
  destruct (match_here URL_REGEX (p ++ rest)) as [[m rest']|] eqn:E;
    [exfalso | reflexivity].
  apply match_here_sound in E. destruct E as [E L]. apply candidate_shape in L.
  destruct L as (sch & a & b & t & Hsch & -> & _).
  destruct Hlow as [H | H]; repeat peel_lower H;
    (destruct p; [|discriminate H]); clear H;
    destruct Hsch as [-> | ->]; simpl in E; injection E; intros; subst;
    try (apply Hneq; reflexivity);
    match goal with
    | H : lower_char _ = _ |- _ => vm_compute in H; discriminate H
    end.
Qed.

Lemma variant_exec (p rest : string) :
  is_scheme_variant p -> no_colon rest = true ->
  exec URL_REGEX (p ++ rest) 0 = None.
Proof.
  intros Hp Hrest. pose proof (variant_no_match p rest Hp) as H0.
  destruct Hp as [[H | H] _]; repeat peel_lower H;
    (destruct p; [|discriminate H]); clear H; cbn [append] in *;
    rewrite (exec_skip _ _ _ _ H0);
    repeat (rewrite exec_skip by (apply match_here_needs_h; not_h));
    now apply no_colon_exec.
Qed.

(** ** The callback and the engine *)

Section Properties.

Context {platform : Platform}.

Lemma set_host_nitter (url : URLRecord) :
  URL_set_host url "nitter.net" = with_host url (Domain "nitter.net").
Proof. reflexivity. Qed.

Lemma set_host_scribe (url : URLRecord) :
  URL_set_host url "scribe.rip" = with_host url (Domain "scribe.rip").
Proof. reflexivity. Qed.

Lemma maybeReplaceUrl_throws (url0 : string) (e : Error) :
  URL_new url0 = Throw e -> maybeReplaceUrl url0 = Throw e.
Proof. unfold maybeReplaceUrl. now intros ->. Qed.

Lemma maybeReplaceUrl_twitter (url0 : string) (url : URLRecord) :
  URL_new url0 = Normal url -> endsWith (URL_host url) "twitter.com" = true ->
  maybeReplaceUrl url0
  = Normal (URL_toString (with_host url (Domain "nitter.net")) ++ source_note url0).
Proof.
  unfold maybeReplaceUrl. intros -> H. cbn [bind]. rewrite H.
  now rewrite set_host_nitter.
Qed.

Lemma maybeReplaceUrl_medium (url0 : string) (url : URLRecord) :
  URL_new url0 = Normal url -> endsWith (URL_host url) "medium.com" = true ->
  maybeReplaceUrl url0
  = Normal (URL_toString (with_host url (Domain "scribe.rip")) ++ source_note url0).
Proof.
  unfold maybeReplaceUrl. intros -> H. cbn [bind].
  rewrite (medium_not_twitter _ H), H. now rewrite set_host_scribe.
Qed.

Lemma maybeReplaceUrl_untouched (url0 : string) (url : URLRecord) :
  URL_new url0 = Normal url ->
  endsWith (URL_host url) "twitter.com" = false ->
  endsWith (URL_host url) "medium.com" = false ->
  maybeReplaceUrl url0 = Normal url0.
Proof. unfold maybeReplaceUrl. intros -> H1 H2. cbn [bind]. now rewrite H1, H2. Qed.

(** The callback returns normally exactly on the candidates that parse. *)
Lemma maybeReplaceUrl_normal_iff (url0 : string) :
  (exists out, maybeReplaceUrl url0 = Normal out) <-> parses url0.
Proof.
  unfold parses. split.
  - intros (out & H). destruct (URL_new url0) as [url|e] eqn:E; [now exists url|].
    rewrite (maybeReplaceUrl_throws _ _ E) in H. discriminate.
  - intros (url & E).
    destruct (endsWith (URL_host url) "twitter.com") eqn:H1.
    + eexists. apply (maybeReplaceUrl_twitter _ _ E H1).
    + destruct (endsWith (URL_host url) "medium.com") eqn:H2.
      * eexists. apply (maybeReplaceUrl_medium _ _ E H2).
      * eexists. apply (maybeReplaceUrl_untouched _ _ E H1 H2).
Qed.

Lemma replacement_of_mirror (url0 : string) (url : URLRecord) (suffix mirror : string) :
  URL_new url0 = Normal url ->
  mirror_of suffix mirror ->
  endsWith (URL_host url) suffix = true ->
  maybeReplaceUrl url0
  = Normal (URL_toString (with_host url (Domain mirror)) ++ source_note url0).
Proof.
  intros E [[-> ->] | [-> ->]] H.
  - apply (maybeReplaceUrl_twitter _ _ E H).
  - apply (maybeReplaceUrl_medium _ _ E H).
Qed.

(** What the code does: a candidate is rewritten exactly when the text of its
    host ends with one of the two names, with no test of what precedes it. *)
Lemma rewritten_iff_endsWith (url0 : string) (url : URLRecord) :
  URL_new url0 = Normal url ->
  (maybeReplaceUrl url0 <> Normal url0 ->
   endsWith (URL_host url) "twitter.com" = true
   \/ endsWith (URL_host url) "medium.com" = true).
Proof.
  intros E H.
  destruct (endsWith (URL_host url) "twitter.com") eqn:H1; [now left|].
  destruct (endsWith (URL_host url) "medium.com") eqn:H2; [now right|].
  exfalso. apply H. apply (maybeReplaceUrl_untouched _ _ E H1 H2).
Qed.

Lemma substituteUrls_weave (text : string) :
  let ms := results URL_REGEX text in
  exists gaps tail,
    List.length gaps = List.length ms
    /\ text = weave gaps (map snd ms) tail
    /\ map fst ms = starts 0 gaps (map snd ms)
    /\ substituteUrls text
       = (rs <- mapM maybeReplaceUrl (map snd ms) ;; Normal (weave gaps rs tail)).
Proof. apply (replace_weave URL_REGEX maybeReplaceUrl candidate_nonempty). Qed.

Lemma substituteUrls_no_match (text : string) :
  exec URL_REGEX text 0 = None -> substituteUrls text = Normal text.
Proof.
  intros H. unfold substituteUrls, replace, results. simpl matchAll. rewrite H.
  simpl. now destruct text.
Qed.

(** C2, as the code has it.  [substituteUrls] returns a string exactly when
    every candidate the scanner finds parses as a URL; the code has no handler,
    so the [TypeError] of the leftmost candidate that does not parse reaches
    the caller and no text is returned. *)
Theorem C2_returns_iff_candidates_parse (text : string) :
  let candidates := map snd (results URL_REGEX text) in
  ((exists out, substituteUrls text = Normal out) <-> Forall parses candidates)
  /\ (forall (front : list string) m back e,
        candidates = (front ++ m :: back)%list -> Forall parses front ->
        URL_new m = Throw e -> substituteUrls text = Throw e).
Proof.
  cbn zeta. destruct (substituteUrls_weave text) as (gaps & tail & _ & _ & _ & Heq).
  rewrite Heq. split; [split|].
  - intros (out & H). unfold bind in H.
    destruct (mapM maybeReplaceUrl _) as [rs|e] eqn:E; [|discriminate].
    assert (Hex : exists bs, mapM maybeReplaceUrl (map snd (results URL_REGEX text))
                             = Normal bs) by now exists rs.
    apply mapM_normal_iff in Hex. revert Hex. apply Forall_impl.
    intros m. apply maybeReplaceUrl_normal_iff.
  - intros H.
    assert (Hex : exists bs, mapM maybeReplaceUrl (map snd (results URL_REGEX text))
                             = Normal bs).
    { apply mapM_normal_iff. revert H. apply Forall_impl.
      intros m. apply maybeReplaceUrl_normal_iff. }
    destruct Hex as (bs & ->). simpl. eauto.
  - intros front m back e -> Hfront Hm.
    rewrite (mapM_first_throw maybeReplaceUrl front m back e); [reflexivity| |].
    + revert Hfront. apply Forall_impl. intros x. apply maybeReplaceUrl_normal_iff.
    + now apply maybeReplaceUrl_throws.
Qed.

(** C3.  A candidate that parses and whose host passes the test for a mirror
    is replaced by the serialised URL whose host is the mirror, followed at
    once by [ ([source](], the candidate as it was matched, and [))]. *)
Theorem C3_annotation_format (url0 : string) (url : URLRecord) (suffix mirror : string) :
  URL_new url0 = Normal url ->
  mirror_of suffix mirror ->
  endsWith (URL_host url) suffix = true ->
  maybeReplaceUrl url0
  = Normal (URL_toString (with_host url (Domain mirror))
            ++ " ([source](" ++ url0 ++ "))").
Proof. apply replacement_of_mirror. Qed.

(** C6.  The text is a layout gap, span, ..., gap, span, tail in which the
    spans are the scanner's matches in order, starting at the indices the
    scanner reports; the callback is run on each span from left to right, and
    the output is the same layout with each span replaced by its result. *)
Theorem C6_single_pass (text : string) :
  let ms := results URL_REGEX text in
  exists gaps tail,
    List.length gaps = List.length ms
    /\ text = weave gaps (map snd ms) tail
    /\ map fst ms = starts 0 gaps (map snd ms)
    /\ substituteUrls text
       = (rs <- mapM maybeReplaceUrl (map snd ms) ;; Normal (weave gaps rs tail)).
Proof. apply substituteUrls_weave. Qed.

(** C7.  A text none of whose substrings is a word of the scanner's pattern
    is returned as it is. *)
Theorem C7_no_url_identity (text : string) :
  (forall a m b, text = a ++ m ++ b -> ~ lang URL_REGEX m) ->
  substituteUrls text = Normal text.
Proof.
  intros H. apply substituteUrls_no_match. now apply exec_none.
Qed.

(** C1.  The host test of the code is [endsWith(suffix)] alone.  The candidate
    [https://eviltwitter.com/x] has the host [eviltwitter.com], which neither
    equals [twitter.com] nor ends with [.twitter.com], and it is rewritten. *)
Theorem C1_suffix_without_dot_boundary :
  URL_new "https://eviltwitter.com/x"
  = Normal (mkURL "https" "" "" (Domain "eviltwitter.com") None ["x"] None None)
  /\ spec_host_match "eviltwitter.com" "twitter.com" = false
  /\ spec_host_match "eviltwitter.com" "medium.com" = false
  /\ substituteUrls "https://eviltwitter.com/x"
     = Normal "https://nitter.net/x ([source](https://eviltwitter.com/x))".
Proof. repeat split; reflexivity. Qed.

(** C9.  [https://twitter.com] is a candidate; its parsed path is the single
    empty segment, which is serialised as a slash the candidate did not
    have. *)
Theorem C9_bare_host_gains_slash :
  results URL_REGEX "https://twitter.com" = [(0, "https://twitter.com")]
  /\ URL_new "https://twitter.com"
     = Normal (mkURL "https" "" "" (Domain "twitter.com") None [""] None None)
  /\ substituteUrls "https://twitter.com"
     = Normal "https://nitter.net/ ([source](https://twitter.com))"
  /\ substituteUrls "https://twitter.com"
     <> Normal ("https://" ++ "nitter.net" ++ "" ++ " ([source](https://twitter.com))").
Proof. repeat split; try reflexivity. discriminate. Qed.

(** C8.  At a scheme followed by a run of host characters that has no
    internal dot the scanner does not match, whatever follows the run; a text
    that is just such a scheme and host is returned as it is, and so is a word
    of host characters with no scheme before it. *)
Theorem C8_dotless_host_not_matched (sch h t w : string) :
  is_scheme_prefix sch ->
  forallb_str host_class h = true -> internal_dot h = false ->
  ends_host_run t = true ->
  forallb_str host_class w = true ->
  match_here URL_REGEX (sch ++ h ++ t) = None
  /\ substituteUrls (sch ++ h) = Normal (sch ++ h)
  /\ substituteUrls w = Normal w.
Proof.
  intros Hsch Hh Hdot Ht Hw. repeat split.
  - now apply scheme_position_no_match.
  - apply substituteUrls_no_match. now apply scheme_and_dotless_host_exec.
  - apply substituteUrls_no_match, no_colon_exec, host_word_no_colon, Hw.
Qed.

(** The candidate [http://a.b:x] does not parse, on any runtime. *)
Lemma unparseable_candidate_throws :
  results URL_REGEX "http://a.b:x" = [(0, "http://a.b:x")]
  /\ URL_new "http://a.b:x" = Throw invalid_url
  /\ substituteUrls "http://a.b:x" = Throw invalid_url.
Proof. repeat split; reflexivity. Qed.

End Properties.

(** ** The properties at concrete inputs *)

(** C2 fails as stated: the scanner matches [http://a.b:x], the URL
    constructor rejects the port, and the call throws. *)
Lemma C2_counterexample :
  results URL_REGEX "http://a.b:x" = [(0, "http://a.b:x")]
  /\ @URL_new bare "http://a.b:x" = Throw (TypeError "Invalid URL")
  /\ run "http://a.b:x" = Throw (TypeError "Invalid URL").
Proof. repeat split; reflexivity. Qed.

Lemma C3_witness :
  @URL_new bare "https://twitter.com/wezm"
  = Normal (mkURL "https" "" "" (Domain "twitter.com") None ["wezm"] None None)
  /\ @maybeReplaceUrl bare "https://twitter.com/wezm"
     = Normal "https://nitter.net/wezm ([source](https://twitter.com/wezm))".
Proof.
  split; [reflexivity|].
  apply (@C3_annotation_format bare "https://twitter.com/wezm"
           (mkURL "https" "" "" (Domain "twitter.com") None ["wezm"] None None)
           "twitter.com" "nitter.net").
  - reflexivity.
  - left. split; reflexivity.
  - reflexivity.
Defined.

Lemma C7_witness :
  run "Here is some things from twitter.com, nothing else"
  = Normal "Here is some things from twitter.com, nothing else".
Proof.
  apply (@C7_no_url_identity bare).
  apply no_colon_no_candidate. reflexivity.
Defined.

Lemma C8_witness :
  match_here URL_REGEX "https://twitter" = None
  /\ run "https://twitter" = Normal "https://twitter"
  /\ run "twitter.com" = Normal "twitter.com".
Proof.
  apply (@C8_dotless_host_not_matched bare "https://" "twitter" "" "twitter.com");
    try reflexivity.
  right. reflexivity.
Defined.

(** * Further properties of the scanner *)

Lemma app_eq_split (a : string) :
  forall x g y, a ++ x = g ++ y -> length a <= length g ->
    exists d, g = a ++ d /\ x = d ++ y.
Proof.
  induction a as [|c a IH]; intros x g y E Hlen.
  - exists g. now split.
  - destruct g as [|c' g]; [simpl in Hlen; lia|].
    simpl in E. injection E as -> E. simpl in Hlen.
    destruct (IH x g y E) as (d & -> & ->); [lia|]. now exists d.
Qed.

(** Where [exec] stops is the first index at which the matcher succeeds. *)
Lemma exec_first (r : regex) (s : string) :
  forall i position m rest,
    exec r s i = Some (position, m, rest) ->
    exists g, s = g ++ m ++ rest /\ position = i + length g
      /\ match_here r (m ++ rest) = Some (m, rest)
      /\ (forall g1 g2, g = g1 ++ g2 -> g2 <> "" ->
            match_here r (g2 ++ m ++ rest) = None).
Proof.
  induction s as [|c s IH]; intros i position m rest H; simpl in H.
  - destruct (match_here r "") as [[m' rest']|] eqn:E; [|discriminate].
    injection H as <- <- <-. pose proof (match_here_sound _ _ _ _ E) as [E' _].
    exists "". simpl. rewrite <- E'. repeat split; [lia | exact E |].
    intros g1 g2 Hg. destruct g1, g2; try discriminate Hg. congruence.
  - destruct (match_here r (String c s)) as [[m' rest']|] eqn:E.
    + injection H as <- <- <-. pose proof (match_here_sound _ _ _ _ E) as [E' _].
      exists "". simpl. rewrite <- E'. repeat split; [lia | exact E |].
      intros g1 g2 Hg. destruct g1, g2; try discriminate Hg. congruence.
    + apply IH in H. destruct H as (g & -> & -> & Hm & Hgap).
      exists (String c g). simpl. repeat split; [lia | exact Hm |].
      intros g1 g2 Hg Hne. destruct g1 as [|c1 g1]; simpl in Hg.
      * subst g2. exact E.
      * injection Hg as _ Hg. now apply (Hgap g1 g2).
Qed.

(** Every reported span is a success of the matcher at its position. *)
Lemma matchAll_spans (r : regex) (fuel : nat) :
  forall s i position m,
    In (position, m) (matchAll fuel r s i) ->
    exists a b, s = a ++ m ++ b /\ position = i + length a
      /\ match_here r (m ++ b) = Some (m, b).
Proof.
  induction fuel as [|fuel IH]; intros s i position m Hin; [destruct Hin|].
  simpl in Hin.
  destruct (exec r s i) as [[[p0 m0] rest]|] eqn:E; [|destruct Hin].
  apply exec_first in E. destruct E as (g & -> & -> & Hm & _).
  destruct Hin as [Hhead | Htail].
  - injection Hhead as <- <-. now exists g, rest.
  - destruct m0 as [|c0 m0].
    + destruct rest as [|c rest]; [destruct Htail|].
      apply IH in Htail. destruct Htail as (a & b & -> & -> & Hm').
      exists (g ++ String c a), b. rewrite str_app_assoc, str_length_app. simpl.
      repeat split; [lia | exact Hm'].
    + apply IH in Htail. destruct Htail as (a & b & -> & -> & Hm').
      exists (g ++ String c0 m0 ++ a), b.
      rewrite !str_app_assoc, !str_length_app.
      repeat split; [lia | exact Hm'].
Qed.

Lemma repeat_matcher_some (m : Cont -> Cont) (fuel : nat) (s : string) :
  repeat_matcher m Some fuel s <> None.
Proof. destruct fuel; simpl; [discriminate|]. destruct (m _ s); discriminate. Qed.

(** A greedy run of a class, with nothing required after it, stops only where
    the class stops. *)
Lemma class_star_greedy (p : ascii -> bool) (fuel : nat) :
  forall s x, length s <= fuel ->
    repeat_matcher (rmatch (Class p)) Some fuel s = Some x ->
    match x with String c _ => p c = false | EmptyString => True end.
Proof.
  induction fuel as [|fuel IH]; intros s x Hlen H.
  - destruct s; [|simpl in Hlen; lia]. simpl in H. now injection H as <-.
  - simpl in H. destruct s as [|a s].
    + now injection H as <-.
    + destruct (p a) eqn:Hp.
      * replace (length s <? length (String a s)) with true in H
          by (symmetry; apply Nat.ltb_lt; simpl; lia).
        destruct (repeat_matcher (rmatch (Class p)) Some fuel s) as [y|] eqn:E.
        -- change (match repeat_matcher (rmatch (Class p)) Some fuel s with
                   | Some r => Some r
                   | None => Some (String a s)
                   end = Some x) in H.
           rewrite E in H. injection H as <-.
           apply (IH s y); [simpl in Hlen; lia | exact E].
        -- now apply repeat_matcher_some in E.
      * injection H as <-. exact Hp.
Qed.

Lemma class_plus_greedy (p : ascii -> bool) (s x : string) :
  rmatch (Rep1 (Class p)) Some s = Some x ->
  match x with String c _ => p c = false | EmptyString => True end.
Proof.
  simpl. destruct s as [|a s]; [discriminate|].
  destruct (p a); [|discriminate].
  apply class_star_greedy. lia.
Qed.

Lemma URL_REGEX_split (k : Cont) (s : string) :
  rmatch URL_REGEX k s = rmatch URL_REGEX_front (rmatch (Rep1 (Class tail_class)) k) s.
Proof. reflexivity. Qed.

Lemma match_here_greedy (s m rest : string) :
  match_here URL_REGEX s = Some (m, rest) -> ends_url_run rest = true.
Proof.
  unfold match_here. destruct (rmatch URL_REGEX Some s) as [x|] eqn:E; [|discriminate].
  intros H. injection H as _ <-. rewrite URL_REGEX_split in E.
  apply rmatch_sound in E. destruct E as (a & b & _ & _ & E).
  apply class_plus_greedy in E. destruct x as [|c x]; [reflexivity|].
  simpl. now rewrite E.
Qed.

Section Leftmost.

Variable r : regex.
Hypothesis r_nonempty : forall m, lang r m -> m <> "".

(** No word of the pattern starts in a gap. *)
Lemma matchAll_covers (fuel : nat) :
  forall s i, length s < fuel ->
  forall a w b, s = a ++ w ++ b -> lang r w ->
    exists position c,
      In (position, c) (matchAll fuel r s i)
      /\ position <= i + length a < position + length c.
Proof.
  induction fuel as [|fuel IH]; intros s i Hfuel a w b Hs Lw; [lia|].
  destruct (exec r s i) as [[[position m] rest]|] eqn:E.
  - pose proof E as E'. apply exec_first in E'.
    destruct E' as (g & Hg & -> & Hm & Hgap).
    pose proof (match_here_sound _ _ _ _ Hm) as [_ Lm].
    pose proof (r_nonempty _ Lm) as Hne.
    rewrite (matchAll_step r fuel _ _ _ _ _ E Hne).
    destruct (Nat.lt_ge_cases (length a) (length g)) as [Hlt | Hge].
    + (* the word would start inside the gap *)
      exfalso. rewrite Hs in Hg.
      destruct (app_eq_split a (w ++ b) g (m ++ rest) Hg) as (d & -> & Hd); [lia|].
      apply (match_here_complete r w b Lw). rewrite Hd.
      apply (Hgap a d eq_refl). intros ->.
      rewrite str_length_app in Hlt. simpl in Hlt. lia.
    + destruct (Nat.lt_ge_cases (length a) (length g + length m)) as [Hin | Hout].
      * exists (i + length g), m. split; [now left | lia].
      * assert (Hsplit : (g ++ m) ++ rest = a ++ w ++ b)
          by (rewrite str_app_assoc; congruence).
        destruct (app_eq_split (g ++ m) rest a (w ++ b) Hsplit) as (d & -> & Hd).
        { rewrite str_length_app. lia. }
        rewrite Hg, !str_length_app in Hfuel.
        assert (0 < length m) by (destruct m; [congruence | simpl; lia]).
        destruct (IH rest (i + length g + length m)) with (a := d) (w := w) (b := b)
          as (p' & c & Hin' & Hp'); [lia | exact Hd | exact Lw |].
        exists p', c. split; [now right|].
        rewrite !str_length_app in *. lia.
  - exfalso. apply (proj1 (exec_none_iff r s i) E a w b Hs Lw).
Qed.

End Leftmost.

(** X1.  Every span the scanner reports lies in the text at the reported
    index, begins with [http://] or [https://] in lower case, and goes on with
    at least four characters, all of them from the last class of the
    pattern. *)
Theorem X1_span_shape (text : string) (position : nat) (m : string) :
  In (position, m) (results URL_REGEX text) ->
  js_substring text position (position + length m) = m
  /\ exists sch rest,
       is_scheme_prefix sch /\ m = sch ++ rest
       /\ 4 <= length rest /\ forallb_str tail_class rest = true.
Proof.
  intros Hin. apply matchAll_spans in Hin.
  destruct Hin as (a & b & -> & -> & Hm). split.
  - apply substring_middle.
  - apply match_here_sound in Hm. destruct Hm as [_ L].
    apply candidate_shape in L.
    destruct L as (sch & x & y & t & Hsch & -> & Hx & Hhx & Hy & Hhy & Ht & Htt).
    exists sch, (x ++ String "." (y ++ t)). repeat split; [exact Hsch | |].
    + rewrite str_length_app. simpl. rewrite str_length_app.
      destruct x, y, t; try congruence; simpl; lia.
    + rewrite forallb_str_app. simpl. rewrite forallb_str_app, Htt, andb_true_r.
      rewrite (forallb_str_weaken _ _ x host_class_tail_class Hhx).
      now rewrite (forallb_str_weaken _ _ y host_class_tail_class Hhy).
Qed.

(** X2.  A span always runs to the end of its run of URL characters: the text
    after a reported span is empty or starts with a character outside the
    last class of the pattern.  Punctuation of that class written right after
    a URL is therefore part of the candidate. *)
Theorem X2_span_is_maximal (text : string) (position : nat) (m : string) :
  In (position, m) (results URL_REGEX text) ->
  ends_url_run (drop (position + length m) text) = true.
Proof.
  intros Hin. apply matchAll_spans in Hin.
  destruct Hin as (a & b & -> & -> & Hm).
  apply match_here_greedy in Hm.
  replace (0 + length a + length m) with (length (a ++ m))
    by (rewrite str_length_app; lia).
  now rewrite <- str_app_assoc, drop_app_exact.
Qed.

(** X3.  The scanner skips no URL: wherever a word of the pattern occurs in
    the text, its first character lies inside a reported span. *)
Theorem X3_no_occurrence_skipped (text a w b : string) :
  text = a ++ w ++ b -> lang URL_REGEX w ->
  exists position c,
    In (position, c) (results URL_REGEX text)
    /\ position <= length a < position + length c.
Proof.
  intros Hs Lw.
  destruct (matchAll_covers URL_REGEX candidate_nonempty (S (length text))
              text 0 (Nat.lt_succ_diag_r _) a w b Hs Lw) as (p & c & Hin & Hp).
  exists p, c. split; [exact Hin | lia].
Qed.

(** * Further properties of the engine *)

Lemma decimal_digits_tail (fuel : nat) :
  forall n acc, exists pre, decimal_digits fuel n acc = pre ++ acc.
Proof.
  induction fuel as [|fuel IH]; intros n acc; cbn [decimal_digits]; cbv zeta.
  - now exists "".
  - destruct (n <? 10)%N.
    + now exists (String (ascii_of_N (48 + n mod 10)) "").
    + destruct (IH (n / 10)%N (String (ascii_of_N (48 + n mod 10)) acc)) as (pre & ->).
      exists (pre ++ String (ascii_of_N (48 + n mod 10)) "").
      now rewrite str_app_assoc.
Qed.

(** A number is printed with a decimal digit last. *)
Lemma N_to_string_last (n : N) :
  exists pre d, N_to_string n = pre ++ String d "" /\ is_digit d = true.
Proof.
  unfold N_to_string. cbn [decimal_digits]. cbv zeta.
  assert (Hd : is_digit (ascii_of_N (48 + n mod 10)) = true).
  { unfold is_digit, in_range, code.
    assert (n mod 10 < 10)%N by (apply N.mod_lt; discriminate).
    generalize dependent (n mod 10)%N. intros k Hk.
    rewrite N_ascii_embedding by lia.
    apply andb_true_iff. split; apply N.leb_le; lia. }
  destruct (n <? 10)%N.
  - now exists "", (ascii_of_N (48 + n mod 10)).
  - destruct (decimal_digits_tail (N.to_nat (N.log2 n)) (n / 10)%N
                (String (ascii_of_N (48 + n mod 10)) "")) as (pre & ->).
    now exists pre, (ascii_of_N (48 + n mod 10)).
Qed.

Lemma app_last_inj (a : string) :
  forall b c d, a ++ String c "" = b ++ String d "" -> c = d.
Proof.
  induction a as [|x a IH]; intros b c d E.
  - destruct b as [|y b]; simpl in E; [congruence|].
    injection E as _ E. destruct b; discriminate E.
  - destruct b as [|y b]; simpl in E.
    + injection E as _ E. destruct a; discriminate E.
    + injection E as _ E. now apply (IH b).
Qed.

(** A text that ends with a digit ends with neither of the two names. *)
Lemma digit_end_no_mirror (s : string) (d : ascii) (suffix mirror : string) :
  is_digit d = true -> mirror_of suffix mirror ->
  endsWith (s ++ String d "") suffix = false.
Proof.
  intros Hd M. destruct (endsWith (s ++ String d "") suffix) eqn:E; [|reflexivity].
  apply endsWith_iff in E. destruct E as (p & E).
  destruct M as [[-> _] | [-> _]].
  - change "twitter.com" with ("twitter.co" ++ "m") in E.
    rewrite <- str_app_assoc in E. apply app_last_inj in E. now subst d.
  - change "medium.com" with ("medium.co" ++ "m") in E.
    rewrite <- str_app_assoc in E. apply app_last_inj in E. now subst d.
Qed.

Section More.

Context {platform : Platform}.

Lemma host_with_port (url : URLRecord) (p : N) :
  port url = Some p ->
  exists s d, URL_host url = s ++ String d "" /\ is_digit d = true.
Proof.
  intros Hp. unfold URL_host. rewrite Hp.
  destruct (N_to_string_last p) as (pre & d & -> & Hd).
  exists (serialize_host (host url) ++ ":" ++ pre), d.
  split; [now rewrite !str_app_assoc | exact Hd].
Qed.

(** X4.  The test is made on [url.host], which carries the port: a candidate
    whose parsed URL has a port (one that is not the default of its scheme) is
    returned untouched, whatever its host name. *)
Theorem X4_port_defeats_host_test (url0 : string) (url : URLRecord) (p : N) :
  URL_new url0 = Normal url -> port url = Some p ->
  maybeReplaceUrl url0 = Normal url0.
Proof.
  intros E Hp. destruct (host_with_port url p Hp) as (s & d & Hs & Hd).
  apply (maybeReplaceUrl_untouched _ _ E); rewrite Hs.
  - apply (digit_end_no_mirror s d "twitter.com" "nitter.net" Hd). now left.
  - apply (digit_end_no_mirror s d "medium.com" "scribe.rip" Hd). now right.
Qed.

(** What the callback can return. *)
Lemma maybeReplaceUrl_cases (url0 r : string) :
  maybeReplaceUrl url0 = Normal r ->
  r = url0 \/ exists rewritten, r = rewritten ++ " ([source](" ++ url0 ++ "))".
Proof.
  intros H. destruct (URL_new url0) as [url|e] eqn:E.
  - destruct (endsWith (URL_host url) "twitter.com") eqn:H1.
    + rewrite (maybeReplaceUrl_twitter _ _ E H1) in H. injection H as <-.
      right. now eexists.
    + destruct (endsWith (URL_host url) "medium.com") eqn:H2.
      * rewrite (maybeReplaceUrl_medium _ _ E H2) in H. injection H as <-.
        right. now eexists.
      * rewrite (maybeReplaceUrl_untouched _ _ E H1 H2) in H. injection H as <-.
        now left.
  - rewrite (maybeReplaceUrl_throws _ _ E) in H. discriminate.
Qed.

Lemma mapM_Forall2 {A B : Type} (f : A -> Completion B) (l : list A) :
  forall rs, mapM f l = Normal rs -> Forall2 (fun a b => f a = Normal b) l rs.
Proof.
  induction l as [|a l IH]; intros rs H; simpl in H.
  - injection H as <-. constructor.
  - destruct (f a) as [b|e] eqn:E; [|discriminate]. simpl in H.
    destruct (mapM f l) as [bs|e] eqn:E'; [|discriminate]. simpl in H.
    injection H as <-. constructor; [exact E | now apply IH].
Qed.

Lemma occurs_in_trans (a b c : string) :
  occurs_in a b -> occurs_in b c -> occurs_in a c.
Proof.
  intros (x & y & ->) (u & v & ->). exists (u ++ x), (y ++ v).
  now rewrite !str_app_assoc.
Qed.

Lemma weave_occurs (gaps : list string) :
  forall pieces tail r,
    List.length gaps = List.length pieces -> In r pieces ->
    occurs_in r (weave gaps pieces tail).
Proof.
  induction gaps as [|g gaps IH]; intros [|x pieces] tail r Hlen Hin;
    simpl in Hlen; try discriminate Hlen; try (now destruct Hin).
  injection Hlen as Hlen. destruct Hin as [<- | Hin].
  - now exists g, (weave gaps pieces tail).
  - destruct (IH pieces tail r Hlen Hin) as (a & b & E).
    exists (g ++ x ++ a), b. cbn [weave]. rewrite E. now rewrite !str_app_assoc.
Qed.

Lemma weave_compare (ms rs : list string) :
  Forall2 (fun m r => r = m \/ length m < length r) ms rs ->
  forall gaps tail, List.length gaps = List.length ms ->
    length (weave gaps ms tail) <= length (weave gaps rs tail)
    /\ (weave gaps rs tail = weave gaps ms tail -> rs = ms).
Proof.
  induction 1 as [|m r ms rs Hmr _ IH]; intros gaps tail Hlen.
  - destruct gaps; [|discriminate Hlen]. simpl. now split.
  - destruct gaps as [|g gaps]; [discriminate Hlen|].
    simpl in Hlen. injection Hlen as Hlen.
    destruct (IH gaps tail Hlen) as [Hle Heq]. cbn [weave].
    rewrite !str_length_app. split.
    + destruct Hmr as [-> | Hlt]; lia.
    + intros E. apply str_app_inv_head in E.
      assert (El : length (r ++ weave gaps rs tail)
                   = length (m ++ weave gaps ms tail)) by now rewrite E.
      rewrite !str_length_app in El.
      destruct Hmr as [-> | Hlt]; [|lia].
      apply str_app_inv_head in E. now rewrite (Heq E).
Qed.

Lemma maybeReplaceUrl_grows (url0 r : string) :
  maybeReplaceUrl url0 = Normal r -> r = url0 \/ length url0 < length r.
Proof.
  intros H. apply maybeReplaceUrl_cases in H.
  destruct H as [-> | (x & ->)]; [now left | right].
  rewrite !str_length_app. simpl. lia.
Qed.

(** X5.  No URL is lost: when [substituteUrls] returns, every candidate of the
    text still occurs, as it was matched, in the output (untouched, or inside
    the source note of its replacement). *)
Theorem X5_candidates_survive (text out m : string) :
  substituteUrls text = Normal out ->
  In m (map snd (results URL_REGEX text)) ->
  occurs_in m out.
Proof.
  intros H Hin.
  destruct (substituteUrls_weave text) as (gaps & tail & Hl & _ & _ & Heq).
  rewrite Heq in H. clear Heq. unfold bind in H.
  destruct (mapM maybeReplaceUrl _) as [rs|e] eqn:E; [|discriminate].
  injection H as <-. apply mapM_Forall2 in E.
  rewrite <- (length_map snd) in Hl.
  assert (Hr : exists r, In r rs /\ maybeReplaceUrl m = Normal r).
  { clear Hl. induction E as [|a b l l' Hab _ IH]; [destruct Hin|].
    destruct Hin as [<- | Hin].
    - exists b. split; [now left | exact Hab].
    - destruct (IH Hin) as (r & Hr & Hm). exists r. split; [now right | exact Hm]. }
  destruct Hr as (r & Hr & Hm).
  apply (occurs_in_trans m r).
  - apply maybeReplaceUrl_cases in Hm. destruct Hm as [-> | (x & ->)].
    + exists "", "". simpl. now rewrite str_app_nil_r.
    + exists (x ++ " ([source]("), "))". now rewrite !str_app_assoc.
  - apply weave_occurs; [|exact Hr].
    rewrite Hl. apply (Forall2_length E).
Qed.

(** X6.  The output is never shorter than the text, and it equals the text
    exactly when the callback returned every candidate untouched. *)
Theorem X6_output_grows (text out : string) :
  substituteUrls text = Normal out ->
  length text <= length out
  /\ (out = text
      <-> Forall (fun m => maybeReplaceUrl m = Normal m)
                 (map snd (results URL_REGEX text))).
Proof.
  intros H.
  destruct (substituteUrls_weave text) as (gaps & tail & Hl & Hw & _ & Heq).
  rewrite Heq in H. clear Heq. unfold bind in H.
  destruct (mapM maybeReplaceUrl _) as [rs|e] eqn:E; [|discriminate].
  injection H as <-. apply mapM_Forall2 in E.
  rewrite <- (length_map snd) in Hl.
  set (ms := map snd (results URL_REGEX text)) in *.
  assert (Hgrow : Forall2 (fun m r => r = m \/ length m < length r) ms rs).
  { revert E. apply Forall2_impl. intros m r. apply maybeReplaceUrl_grows. }
  destruct (weave_compare ms rs Hgrow gaps tail Hl) as [Hle Hsame].
  rewrite Hw at 1 2. split; [exact Hle|]. split.
  - intros Hout. apply Hsame in Hout. subst rs.
    clear - E. induction ms as [|m ms IH]; [constructor|].
    inversion E; subst. constructor; auto.
  - intros Hall. f_equal.
    clear - E Hall. induction E as [|m r ms rs Hmr _ IH]; [reflexivity|].
    inversion Hall; subst. f_equal; [congruence | auto].
Qed.

End More.

(** * The earlier versions *)

Lemma accumulate_ext (text : string) (f g : string -> Completion string)
  (rs : list (nat * string)) :
  (forall position m, In (position, m) rs -> f m = g m) ->
  forall acc next, accumulate text f rs acc next = accumulate text g rs acc next.
Proof.
  induction rs as [|[position m] rs IH]; intros H acc next; [reflexivity|].
  cbn [accumulate]. rewrite (H position m) by now left.
  destruct (g m) as [replacement|e]; [|reflexivity]. cbn [bind].
  destruct (next <=? position); apply IH; intros p x Hin; apply (H p x); now right.
Qed.

(** [replace] looks at its callback on the matches only. *)
Lemma replace_ext (text : string) (r : regex) (f g : string -> Completion string) :
  (forall position m, In (position, m) (results r text) -> f m = g m) ->
  replace text r f = replace text r g.
Proof. intros H. unfold replace. now apply accumulate_ext. Qed.

Section Versions.

Context {platform : Platform}.

Lemma v1_callback_normal_iff (url0 : string) :
  (exists out, (u <- UrlV1.twitterUrlToNitterUrl url0 ;; Normal (URL_toString u))
               = Normal out)
  <-> parses url0.
Proof.
  unfold UrlV1.twitterUrlToNitterUrl, parses.
  destruct (URL_new url0) as [url|e]; cbn [bind].
  - split; [intros _; now exists url|]. intros _.
    destruct (_ || _); cbn [bind]; eauto.
  - split; [intros (out & H); discriminate H | intros (url & H); discriminate H].
Qed.

Lemma v1_returns_iff (text : string) :
  let candidates := map snd (results URL_REGEX text) in
  ((exists out, UrlV1.twitterToNitter text = Normal out) <-> Forall parses candidates)
  /\ (forall (front : list string) m back e,
        candidates = (front ++ m :: back)%list -> Forall parses front ->
        URL_new m = Throw e -> UrlV1.twitterToNitter text = Throw e).
Proof.
  cbn zeta. unfold UrlV1.twitterToNitter.
  set (f := fun url => u <- UrlV1.twitterUrlToNitterUrl url ;; Normal (URL_toString u)).
  destruct (replace_weave URL_REGEX f candidate_nonempty text)
    as (gaps & tail & _ & _ & _ & Heq).
  rewrite Heq. clear Heq. split; [split|].
  - intros (out & H). unfold bind in H.
    destruct (mapM f _) as [rs|e] eqn:E; [|discriminate].
    assert (Hex : exists bs, mapM f (map snd (results URL_REGEX text)) = Normal bs)
      by now exists rs.
    apply mapM_normal_iff in Hex. revert Hex. apply Forall_impl.
    intros m. apply v1_callback_normal_iff.
  - intros H.
    assert (Hex : exists bs, mapM f (map snd (results URL_REGEX text)) = Normal bs).
    { apply mapM_normal_iff. revert H. apply Forall_impl.
      intros m. apply v1_callback_normal_iff. }
    destruct Hex as (bs & ->). simpl. eauto.
  - intros front m back e -> Hfront Hm.
    rewrite (mapM_first_throw f front m back e); [reflexivity| |].
    + revert Hfront. apply Forall_impl. intros x. apply v1_callback_normal_iff.
    + unfold f, UrlV1.twitterUrlToNitterUrl. now rewrite Hm.
Qed.

(** X7.  The first version, which the webhook calls, has no error handling
    either: [twitterToNitter] returns a text exactly when every candidate
    parses, and otherwise throws the error of the leftmost candidate that
    does not. *)
Theorem X7_v1_returns_iff_candidates_parse (text : string) :
  let candidates := map snd (results URL_REGEX text) in
  ((exists out, UrlV1.twitterToNitter text = Normal out) <-> Forall parses candidates)
  /\ (forall (front : list string) m back e,
        candidates = (front ++ m :: back)%list -> Forall parses front ->
        URL_new m = Throw e -> UrlV1.twitterToNitter text = Throw e).
Proof. apply v1_returns_iff. Qed.

(** X8.  The second version rewrites whatever the first one rewrote: the two
    [twitterToNitter] give the same result on every text in which no
    candidate has a host that ends with [twitter.com] without being
    [twitter.com] or [mobile.twitter.com]. *)
Theorem X8_v2_extends_v1 (text : string) :
  (forall m url,
      In m (map snd (results URL_REGEX text)) -> URL_new m = Normal url ->
      endsWith (URL_host url) "twitter.com" = true ->
      URL_host url = "twitter.com" \/ URL_host url = "mobile.twitter.com") ->
  UrlV1.twitterToNitter text = UrlV2.twitterToNitter text.
Proof.
  intros H. unfold UrlV1.twitterToNitter, UrlV2.twitterToNitter, UrlV2.substituteUrls.
  apply replace_ext. intros position m Hin. f_equal.
  unfold UrlV1.twitterUrlToNitterUrl, UrlV2.twitterUrlToNitterUrl.
  destruct (URL_new m) as [url|e] eqn:E; [|reflexivity]. cbn [bind].
  assert (Hm : In m (map snd (results URL_REGEX text)))
    by (apply (in_map snd) in Hin; exact Hin).
  destruct (endsWith (URL_host url) "twitter.com") eqn:Hends.
  - destruct (H m url Hm E Hends) as [-> | ->]; reflexivity.
  - destruct (String.eqb_spec (URL_host url) "twitter.com") as [Heq|_];
      [rewrite Heq in Hends; discriminate Hends|].
    destruct (String.eqb_spec (URL_host url) "mobile.twitter.com") as [Heq|_];
      [rewrite Heq in Hends; discriminate Hends|].
    reflexivity.
Qed.

End Versions.

(** * The webhook *)

Lemma ascii_space_not_visible (c : ascii) :
  is_ascii_space c = true -> negb (is_visible c) = true.
Proof. intros H. bool_to_prop. lia. Qed.

Lemma space_2_not_visible (c1 c2 : ascii) :
  ((code c1 =? 194) && (code c2 =? 160))%N = true ->
  negb (is_visible c1) = true /\ negb (is_visible c2) = true.
Proof. intros H. bool_to_prop. lia. Qed.

Lemma space_3_not_visible (c1 c2 c3 : ascii) :
  is_space_3 c1 c2 c3 = true ->
  negb (is_visible c1) = true /\ negb (is_visible c2) = true
  /\ negb (is_visible c3) = true.
Proof. intros H. bool_to_prop. lia. Qed.

(** A blank text has no printable character. *)
Lemma blank_no_visible (n : nat) :
  forall s, length s <= n -> is_blank s = true ->
    forallb_str (fun c => negb (is_visible c)) s = true.
Proof.
  induction n as [|n IH]; intros s Hlen H.
  - destruct s; [reflexivity | simpl in Hlen; lia].
  - destruct s as [|c1 s1]; [reflexivity|]. cbn [is_blank] in H. simpl in Hlen.
    destruct (is_ascii_space c1) eqn:H1.
    + cbn [forallb_str]. rewrite (ascii_space_not_visible c1 H1).
      apply IH; [lia | exact H].
    + destruct s1 as [|c2 s2]; [discriminate|]. simpl in Hlen.
      destruct ((code c1 =? 194) && (code c2 =? 160))%N eqn:H2.
      * destruct (space_2_not_visible c1 c2 H2) as [V1 V2].
        cbn [forallb_str]. rewrite V1, V2. apply IH; [lia | exact H].
      * destruct s2 as [|c3 s3]; [discriminate|]. simpl in Hlen.
        destruct (is_space_3 c1 c2 c3) eqn:H3; [|discriminate].
        destruct (space_3_not_visible c1 c2 c3 H3) as (V1 & V2 & V3).
        cbn [forallb_str]. rewrite V1, V2, V3. apply IH; [lia | exact H].
Qed.

Lemma visible_not_blank (s : string) :
  existsb_str is_visible s = true -> is_blank s = false.
Proof.
  unfold existsb_str. intros H. apply negb_true_iff in H.
  destruct (is_blank s) eqn:E; [|reflexivity].
  now rewrite (blank_no_visible (length s) s (Nat.le_refl _) E) in H.
Qed.

Lemma ascii_space_blank (s : string) :
  forallb_str is_ascii_space s = true -> is_blank s = true.
Proof.
  induction s as [|c s IH]; [reflexivity|]. cbn [forallb_str is_blank].
  intros H. apply andb_true_iff in H. destruct H as [-> H]. now apply IH.
Qed.

Section Webhook.

Context {platform : Platform} {server : Server}.

Lemma verifyToken_iff (request : Request) :
  Index.verifyToken request = true
  <-> headers_get request "Authorization" = Some expected_authorization.
Proof.
  unfold Index.verifyToken, expected_authorization.
  destruct (headers_get request "Authorization") as [a|].
  - rewrite String.eqb_eq. split; congruence.
  - split; discriminate.
Qed.

(** X9.  The token gate.  A validated request whose Authorization header is
    not exactly [Token ] followed by the configured token is answered with
    status 401 and [Invalid request], before its body is read; a response
    that carries a [response_type] is only ever given to a request with that
    header.  With the variable missing from the environment the accepted
    header is [Token undefined]. *)
Theorem X9_token_gate (request : Request) :
  validateRequest request = None ->
  (headers_get request "Authorization" <> Some expected_authorization ->
   Index.nitterSlashCommand request
   = Normal (json [("error", "Invalid request")] 401))
  /\ (forall response,
        Index.nitterSlashCommand request = Normal response ->
        In "response_type" (map fst (response_body response)) ->
        headers_get request "Authorization" = Some expected_authorization)
  /\ (env_get "MM_SLASH_TOKEN" = None -> expected_authorization = "Token undefined").
Proof.
  intros Hv. unfold Index.nitterSlashCommand. rewrite Hv. repeat split.
  - intros Hne. destruct (Index.verifyToken request) eqn:E; [|reflexivity].
    apply verifyToken_iff in E. contradiction.
  - intros response H Hin. apply verifyToken_iff.
    destruct (Index.verifyToken request); [reflexivity|].
    cbn [negb] in H. injection H as <-. simpl in Hin.
    destruct Hin as [Hin | []]. discriminate Hin.
  - unfold expected_authorization. now intros ->.
Qed.

(** X10.  An authenticated command whose [text] field has a printable
    character is answered [in_channel] with the text [twitterToNitter] of the
    first version returns; the handler catches nothing, so it responds
    exactly when every candidate of the text parses. *)
Theorem X10_command_is_rewritten (request : Request)
  (entries : list (string * FormDataEntryValue)) (formText : string) :
  validateRequest request = None ->
  headers_get request "Authorization" = Some expected_authorization ->
  formData request = Normal entries ->
  FormData_get entries "text" = Some (EntryString formText) ->
  existsb_str is_visible formText = true ->
  Index.nitterSlashCommand request
  = (nitterText <- UrlV1.twitterToNitter formText ;; Normal (in_channel nitterText))
  /\ ((exists response, Index.nitterSlashCommand request = Normal response)
      <-> Forall parses (map snd (results URL_REGEX formText))).
Proof.
  intros Hv Ha Hf Ht Hvis.
  assert (E : Index.nitterSlashCommand request
              = (nitterText <- UrlV1.twitterToNitter formText ;;
                 Normal (in_channel nitterText))).
  { unfold Index.nitterSlashCommand. rewrite Hv.
    rewrite (proj2 (verifyToken_iff request) Ha). cbn [negb].
    rewrite Hf. cbn [bind]. rewrite Ht.
    now rewrite (visible_not_blank formText Hvis). }
  split; [exact E|]. rewrite E.
  destruct (v1_returns_iff formText) as [Hiff _]. rewrite <- Hiff.
  destruct (UrlV1.twitterToNitter formText) as [out|e]; cbn [bind].
  - split; eauto.
  - split; [intros (r & H); discriminate H | intros (o & H); discriminate H].
Qed.

(** X11.  An authenticated command without a usable text (no [text] field,
    a file, or a string of ASCII white space only) gets the [ephemeral]
    answer, with status 200. *)
Theorem X11_blank_command (request : Request)
  (entries : list (string * FormDataEntryValue)) :
  validateRequest request = None ->
  headers_get request "Authorization" = Some expected_authorization ->
  formData request = Normal entries ->
  match FormData_get entries "text" with
  | Some (EntryString formText) => forallb_str is_ascii_space formText = true
  | _ => True
  end ->
  Index.nitterSlashCommand request = Normal ephemeral.
Proof.
  intros Hv Ha Hf Ht. unfold Index.nitterSlashCommand. rewrite Hv.
  rewrite (proj2 (verifyToken_iff request) Ha). cbn [negb].
  rewrite Hf. cbn [bind].
  destruct (FormData_get entries "text") as [[formText|file]|]; try reflexivity.
  now rewrite (ascii_space_blank formText Ht).
Qed.

End Webhook.

(** * The further properties at concrete inputs *)

Lemma X1_witness :
  js_substring "see https://t.co/a1 now" 4 (4 + length "https://t.co/a1")
  = "https://t.co/a1"
  /\ exists sch rest,
       is_scheme_prefix sch /\ "https://t.co/a1" = sch ++ rest
       /\ 4 <= length rest /\ forallb_str tail_class rest = true.
Proof.
  apply (X1_span_shape "see https://t.co/a1 now" 4 "https://t.co/a1").
  vm_compute. left. reflexivity.
Defined.

Lemma X2_witness :
  results URL_REGEX "(see https://twitter.com/a). Next"
  = [(5, "https://twitter.com/a).")]
  /\ ends_url_run (drop (5 + length "https://twitter.com/a).")
                        "(see https://twitter.com/a). Next") = true.
Proof.
  split; [reflexivity|].
  apply (X2_span_is_maximal "(see https://twitter.com/a). Next" 5
           "https://twitter.com/a).").
  vm_compute. left. reflexivity.
Defined.

Lemma X3_witness :
  exists position c,
    In (position, c) (results URL_REGEX "https://twitter.com/http://a.bc/d")
    /\ position <= length "https://twitter.com/" < position + length c.
Proof.
  apply (X3_no_occurrence_skipped "https://twitter.com/http://a.bc/d"
           "https://twitter.com/" "http://a.bc/d" "").
  - reflexivity.
  - exact (proj2 (match_here_sound URL_REGEX "http://a.bc/d" "http://a.bc/d" ""
                    eq_refl)).
Defined.

Lemma X4_witness :
  @URL_host (mkURL "https" "" "" (Domain "twitter.com") (Some 8080%N) ["a"] None None)
  = "twitter.com:8080"
  /\ @maybeReplaceUrl bare "https://twitter.com:8080/a"
     = Normal "https://twitter.com:8080/a".
Proof.
  split; [reflexivity|].
  apply (@X4_port_defeats_host_test bare "https://twitter.com:8080/a"
           (mkURL "https" "" "" (Domain "twitter.com") (Some 8080%N) ["a"] None None)
           8080%N); reflexivity.
Defined.

Lemma X5_witness :
  occurs_in "https://twitter.com/a"
    "see https://nitter.net/a ([source](https://twitter.com/a)) ok".
Proof.
  apply (@X5_candidates_survive bare "see https://twitter.com/a ok").
  - reflexivity.
  - vm_compute. left. reflexivity.
Defined.

Lemma X6_witness :
  length "see https://twitter.com/a ok"
  <= length "see https://nitter.net/a ([source](https://twitter.com/a)) ok"
  /\ ("see https://nitter.net/a ([source](https://twitter.com/a)) ok"
      = "see https://twitter.com/a ok"
      <-> Forall (fun m => @maybeReplaceUrl bare m = Normal m)
                 (map snd (results URL_REGEX "see https://twitter.com/a ok"))).
Proof.
  apply (@X6_output_grows bare "see https://twitter.com/a ok"). reflexivity.
Defined.

Lemma X8_witness :
  @UrlV1.twitterToNitter bare "https://mobile.twitter.com/a and https://example.com"
  = @UrlV2.twitterToNitter bare "https://mobile.twitter.com/a and https://example.com".
Proof.
  apply (@X8_v2_extends_v1 bare).
  intros m url Hin E Hends. vm_compute in Hin.
  destruct Hin as [<- | [<- | []]]; vm_compute in E; injection E as <-.
  - right. reflexivity.
  - discriminate Hends.
Defined.

Lemma X9_witness :
  @Index.nitterSlashCommand bare (server_with_token "secret")
    (form_request "Token guess" "https://twitter.com/a")
  = Normal (json [("error", "Invalid request")] 401).
Proof.
  apply (@X9_token_gate bare (server_with_token "secret")
           (form_request "Token guess" "https://twitter.com/a") eq_refl).
  discriminate.
Defined.

Lemma X10_witness :
  @Index.nitterSlashCommand bare server_without_token
    (form_request "Token undefined" "https://twitter.com/wezm")
  = Normal (in_channel "https://nitter.net/wezm")
  /\ ((exists response,
          @Index.nitterSlashCommand bare server_without_token
            (form_request "Token undefined" "https://twitter.com/wezm")
          = Normal response)
      <-> Forall (@parses bare)
            (map snd (results URL_REGEX "https://twitter.com/wezm"))).
Proof.
  apply (@X10_command_is_rewritten bare server_without_token
           (form_request "Token undefined" "https://twitter.com/wezm")
           [("text", EntryString "https://twitter.com/wezm")]
           "https://twitter.com/wezm"); reflexivity.
Defined.

Lemma X11_witness :
  @Index.nitterSlashCommand bare (server_with_token "secret")
    (form_request "Token secret" "   ")
  = Normal ephemeral.
Proof.
  apply (@X11_blank_command bare (server_with_token "secret")
           (form_request "Token secret" "   ") [("text", EntryString "   ")]);
    reflexivity.
Defined.

(** * The scanner across a boundary *)

Lemma bind_ret {A : Type} (c : Completion A) : (x <- c ;; Normal x) = c.
Proof. now destruct c. Qed.

Lemma exec_shift (r : regex) (s : string) :
  forall i,
    exec r s i = match exec r s 0 with
                 | Some (position, m, rest) => Some (i + position, m, rest)
                 | None => None
                 end.
Proof.
  induction s as [|c s IH]; intros i; cbn [exec].
  - destruct (match_here r "") as [[m rest]|]; [|reflexivity].
    now rewrite Nat.add_0_r.
  - destruct (match_here r (String c s)) as [[m rest]|].
    + now rewrite Nat.add_0_r.
    + rewrite (IH (S i)), (IH 1).
      destruct (exec r s 0) as [[[p m] rest]|]; [|reflexivity].
      do 2 f_equal. f_equal. lia.
Qed.

Lemma take_app_plus (a b : string) (n : nat) :
  take (length a + n) (a ++ b) = a ++ take n b.
Proof. induction a as [|c a IH]; simpl; [reflexivity | now rewrite IH]. Qed.

Lemma take_app_le (a b rest : string) :
  take (length a) ((a ++ b) ++ rest) = a.
Proof. rewrite str_app_assoc. apply take_app_exact. Qed.

(** Every character of a candidate belongs to the last class. *)
Lemma candidate_all_url_chars (m : string) :
  lang URL_REGEX m -> forallb_str tail_class m = true.
Proof.
  intros L. apply candidate_shape in L.
  destruct L as (sch & a & b & t & Hsch & -> & _ & Ha & _ & Hb & _ & Ht).
  rewrite !forallb_str_app. cbn [forallb_str]. rewrite forallb_str_app, Ht.
  rewrite (forallb_str_weaken _ _ a host_class_tail_class Ha).
  rewrite (forallb_str_weaken _ _ b host_class_tail_class Hb).
  destruct Hsch as [-> | ->]; reflexivity.
Qed.

Lemma ends_url_run_app (a b : string) :
  ends_url_run a = true -> ends_url_run b = true -> ends_url_run (a ++ b) = true.
Proof. now destruct a. Qed.

(** A text splits in one way only into a run of URL characters and a rest
    that cannot extend it. *)
Lemma url_run_unique (m1 : string) :
  forall r1 m2 r2,
    m1 ++ r1 = m2 ++ r2 ->
    forallb_str tail_class m1 = true -> forallb_str tail_class m2 = true ->
    ends_url_run r1 = true -> ends_url_run r2 = true ->
    m1 = m2 /\ r1 = r2.
Proof.
  induction m1 as [|c m1 IH]; intros r1 m2 r2 E H1 H2 E1 E2.
  - destruct m2 as [|c2 m2]; [now split|]. exfalso.
    simpl in E. subst r1. simpl in E1, H2.
    apply andb_true_iff in H2. destruct H2 as [H2 _]. now rewrite H2 in E1.
  - destruct m2 as [|c2 m2].
    + exfalso. simpl in E. subst r2. simpl in E2, H1.
      apply andb_true_iff in H1. destruct H1 as [H1 _]. now rewrite H1 in E2.
    + simpl in E. injection E as -> E. simpl in H1, H2.
      apply andb_true_iff in H1, H2. destruct H1 as [_ H1], H2 as [_ H2].
      destruct (IH r1 m2 r2 E H1 H2 E1 E2) as [-> ->]. now split.
Qed.

Lemma prefix_in_url_run (u : string) :
  forall h t v, h ++ t = u ++ v -> forallb_str tail_class u = true ->
    ends_url_run t = true -> exists y, h = u ++ y.
Proof.
  induction u as [|c u IH]; intros h t v E Hu Ht.
  - now exists h.
  - simpl in Hu. apply andb_true_iff in Hu. destruct Hu as [Hc Hu].
    destruct h as [|c' h].
    + simpl in E. subst t. simpl in Ht. now rewrite Hc in Ht.
    + simpl in E. injection E as -> E.
      destruct (IH h t v E Hu Ht) as (y & ->). now exists y.
Qed.

(** What follows a character outside the class has no influence on the
    matches before it. *)
Lemma match_here_local (s1 s2 : string) :
  ends_url_run s2 = true ->
  match_here URL_REGEX (s1 ++ s2)
  = match match_here URL_REGEX s1 with
    | Some (m, rest) => Some (m, rest ++ s2)
    | None => None
    end.
Proof.
  intros H2. destruct (match_here URL_REGEX s1) as [[m rest]|] eqn:E1.
  - pose proof (match_here_greedy _ _ _ E1) as Hrest.
    apply match_here_sound in E1. destruct E1 as [-> L].
    rewrite str_app_assoc.
    destruct (match_here URL_REGEX (m ++ rest ++ s2)) as [[m' r']|] eqn:E.
    + pose proof (match_here_greedy _ _ _ E) as Hr'.
      apply match_here_sound in E. destruct E as [E L'].
      destruct (url_run_unique m (rest ++ s2) m' r' E) as [-> ->]; trivial.
      * now apply candidate_all_url_chars.
      * now apply candidate_all_url_chars.
      * now apply ends_url_run_app.
    + now apply (match_here_complete URL_REGEX m (rest ++ s2)) in L.
  - destruct (match_here URL_REGEX (s1 ++ s2)) as [[m' r']|] eqn:E; [|reflexivity].
    exfalso. apply match_here_sound in E. destruct E as [E L'].
    destruct (prefix_in_url_run m' s1 s2 r' E) as (y & ->); trivial.
    + now apply candidate_all_url_chars.
    + now apply (match_here_complete URL_REGEX m' y) in L'.
Qed.

Lemma exec_local (s1 s2 : string) :
  ends_url_run s2 = true ->
  forall i,
    exec URL_REGEX (s1 ++ s2) i
    = match exec URL_REGEX s1 i with
      | Some (position, m, rest) => Some (position, m, rest ++ s2)
      | None => exec URL_REGEX s2 (i + length s1)
      end.
Proof.
  intros H2. induction s1 as [|c s1 IH]; intros i.
  - cbn [append length]. rewrite Nat.add_0_r.
    change (exec URL_REGEX "" i) with (@None (nat * string * string)).
    reflexivity.
  - change (String c s1 ++ s2) with (String c (s1 ++ s2)). cbn [exec].
    change (String c (s1 ++ s2)) with (String c s1 ++ s2).
    rewrite (match_here_local (String c s1) s2 H2).
    destruct (match_here URL_REGEX (String c s1)) as [[m rest]|]; [reflexivity|].
    rewrite (IH (S i)). cbn [length].
    now replace (S i + length s1) with (i + S (length s1)) by lia.
Qed.

(** * The replace loop on the unread text *)

Section Loop.

Variable r : regex.
Variable replacer : string -> Completion string.
Hypothesis r_nonempty : forall m, lang r m -> m <> "".

Lemma accumulate_loop (fuel : nat) :
  forall s pre acc, length s < fuel ->
    accumulate (pre ++ s) replacer (matchAll fuel r s (length pre)) acc (length pre)
    = (out <- rewrite_loop fuel r replacer s ;; Normal (acc ++ out)).
Proof.
  induction fuel as [|fuel IH]; intros s pre acc Hfuel; [lia|].
  cbn [rewrite_loop].
  destruct (exec r s 0) as [[[position m] rest]|] eqn:E0.
  - assert (E : exec r s (length pre) = Some (length pre + position, m, rest))
      by now rewrite exec_shift, E0.
    apply exec_first in E0. destruct E0 as (g & -> & -> & Hm & _).
    pose proof (match_here_sound _ _ _ _ Hm) as [_ L].
    pose proof (r_nonempty _ L) as Hne.
    rewrite (matchAll_step r fuel _ _ _ _ _ E Hne). cbn [accumulate Nat.add].
    rewrite take_app_exact. unfold bind at 1 3.
    destruct (replacer m) as [replacement|e]; [|reflexivity].
    replace (length pre <=? length pre + length g) with true
      by (symmetry; apply Nat.leb_le; lia).
    rewrite substring_middle.
    assert (Hlen : 0 < length m) by (destruct m; [congruence | simpl; lia]).
    rewrite !str_length_app in Hfuel.
    replace (pre ++ g ++ m ++ rest) with ((pre ++ g ++ m) ++ rest)
      by now rewrite !str_app_assoc.
    replace (length pre + length g + length m) with (length (pre ++ g ++ m))
      by (rewrite !str_length_app; lia).
    rewrite IH by lia. unfold bind.
    destruct (rewrite_loop fuel r replacer rest) as [out|e]; [|reflexivity].
    now rewrite !str_app_assoc.
  - assert (E : exec r s (length pre) = None) by now rewrite exec_shift, E0.
    cbn [matchAll]. rewrite E. cbn [accumulate bind].
    now rewrite drop_app_exact.
Qed.

(** [replace] is the loop. *)
Lemma replace_as_loop (text : string) :
  replace text r replacer = rewrite_loop (S (length text)) r replacer text.
Proof.
  pose proof (accumulate_loop (S (length text)) text "" ""
                (Nat.lt_succ_diag_r _)) as H.
  cbn [append length] in H. unfold replace, results. rewrite H.
  apply bind_ret.
Qed.

Lemma loop_fuel (fuel : nat) :
  forall fuel' s, length s < fuel -> length s < fuel' ->
    rewrite_loop fuel r replacer s = rewrite_loop fuel' r replacer s.
Proof.
  induction fuel as [|fuel IH]; intros fuel' s H H'; [lia|].
  destruct fuel' as [|fuel']; [lia|]. cbn [rewrite_loop].
  destruct (exec r s 0) as [[[position m] rest]|] eqn:E0; [|reflexivity].
  apply exec_first in E0. destruct E0 as (g & -> & -> & Hm & _).
  pose proof (match_here_sound _ _ _ _ Hm) as [_ L].
  pose proof (r_nonempty _ L) as Hne.
  assert (Hlen : 0 < length m) by (destruct m; [congruence | simpl; lia]).
  repeat rewrite str_length_app in H. repeat rewrite str_length_app in H'.
  now rewrite (IH fuel' rest) by lia.
Qed.

Lemma loop_step (fuel : nat) (s : string) :
  rewrite_loop (S fuel) r replacer s
  = match exec r s 0 with
    | None => Normal s
    | Some (position, m, rest) =>
        replacement <- replacer m ;;
        out <- rewrite_loop fuel r replacer rest ;;
        Normal (take position s ++ replacement ++ out)
    end.
Proof. reflexivity. Qed.

(** A character at which nothing matches is copied. *)
Lemma loop_skip (c : ascii) (s : string) (fuel fuel' : nat) :
  match_here r (String c s) = None -> length s < fuel -> length s < fuel' ->
  rewrite_loop (S fuel) r replacer (String c s)
  = (b <- rewrite_loop fuel' r replacer s ;; Normal (String c b)).
Proof.
  intros Hc Hf Hf'. destruct fuel' as [|fuel']; [lia|].
  rewrite !loop_step. cbn [exec]. rewrite Hc, exec_shift.
  destruct (exec r s 0) as [[[position m] rest]|] eqn:E2; [|reflexivity].
  apply exec_first in E2. destruct E2 as (g & -> & -> & Hm & _).
  pose proof (match_here_sound _ _ _ _ Hm) as [_ L].
  pose proof (r_nonempty _ L) as Hne.
  assert (Hlen : 0 < length m) by (destruct m; [congruence | simpl; lia]).
  repeat rewrite str_length_app in Hf. repeat rewrite str_length_app in Hf'.
  rewrite (loop_fuel fuel fuel' rest) by lia.
  cbn [Nat.add take]. unfold bind.
  destruct (replacer m) as [replacement|e]; [|reflexivity].
  now destruct (rewrite_loop fuel' r replacer rest).
Qed.

End Loop.

Section Cut.

Variable replacer : string -> Completion string.

Lemma loop_cut (fuel : nat) :
  forall s1 s2 fuel1 fuel2,
    ends_url_run s2 = true ->
    length (s1 ++ s2) < fuel -> length s1 < fuel1 -> length s2 < fuel2 ->
    rewrite_loop fuel URL_REGEX replacer (s1 ++ s2)
    = (a <- rewrite_loop fuel1 URL_REGEX replacer s1 ;;
       b <- rewrite_loop fuel2 URL_REGEX replacer s2 ;; Normal (a ++ b)).
Proof.
  induction fuel as [|fuel IH]; intros s1 s2 fuel1 fuel2 H2 Hf Hf1 Hf2; [lia|].
  destruct fuel1 as [|fuel1]; [lia|]. cbn [rewrite_loop].
  rewrite (exec_local s1 s2 H2 0).
  destruct (exec URL_REGEX s1 0) as [[[position m] rest]|] eqn:E1.
  - apply exec_first in E1. destruct E1 as (g & -> & -> & Hm & _).
    pose proof (match_here_sound _ _ _ _ Hm) as [_ L].
    pose proof (candidate_nonempty _ L) as Hne.
    assert (Hlen : 0 < length m) by (destruct m; [congruence | simpl; lia]).
    repeat rewrite str_length_app in Hf. repeat rewrite str_length_app in Hf1.
    cbn [Nat.add].
    rewrite (IH rest s2 fuel1 fuel2 H2) by (rewrite ?str_length_app; lia).
    rewrite take_app_exact.
    replace ((g ++ m ++ rest) ++ s2) with (g ++ (m ++ rest ++ s2))
      by now rewrite !str_app_assoc.
    rewrite take_app_exact. unfold bind.
    destruct (replacer m) as [replacement|e]; [|reflexivity].
    destruct (rewrite_loop fuel1 URL_REGEX replacer rest) as [a|e]; [|reflexivity].
    destruct (rewrite_loop fuel2 URL_REGEX replacer s2) as [b|e]; [|reflexivity].
    now rewrite !str_app_assoc.
  - cbn [bind Nat.add]. rewrite exec_shift.
    destruct fuel2 as [|fuel2]; [lia|]. cbn [rewrite_loop].
    destruct (exec URL_REGEX s2 0) as [[[position m] rest]|] eqn:E2; [|reflexivity].
    apply exec_first in E2. destruct E2 as (g & -> & -> & Hm & _).
    pose proof (match_here_sound _ _ _ _ Hm) as [_ L].
    pose proof (candidate_nonempty _ L) as Hne.
    assert (Hlen : 0 < length m) by (destruct m; [congruence | simpl; lia]).
    repeat rewrite str_length_app in Hf. repeat rewrite str_length_app in Hf2.
    cbn [Nat.add].
    rewrite take_app_plus, take_app_exact.
    rewrite (loop_fuel URL_REGEX replacer candidate_nonempty fuel fuel2 rest)
      by lia.
    unfold bind.
    destruct (replacer m) as [replacement|e]; [|reflexivity].
    destruct (rewrite_loop fuel2 URL_REGEX replacer rest) as [out|e]; [|reflexivity].
    now rewrite !str_app_assoc.
Qed.

(** A text is rewritten part by part across a character that belongs to no
    candidate. *)
Lemma replace_cut (s1 s2 : string) :
  ends_url_run s2 = true ->
  replace (s1 ++ s2) URL_REGEX replacer
  = (a <- replace s1 URL_REGEX replacer ;;
     b <- replace s2 URL_REGEX replacer ;; Normal (a ++ b)).
Proof.
  intros H2. rewrite !(replace_as_loop URL_REGEX replacer candidate_nonempty).
  apply loop_cut; [exact H2 | lia | lia | lia].
Qed.

Lemma replace_no_match (s : string) :
  exec URL_REGEX s 0 = None -> replace s URL_REGEX replacer = Normal s.
Proof.
  intros H. rewrite (replace_as_loop URL_REGEX replacer candidate_nonempty).
  cbn [rewrite_loop]. now rewrite H.
Qed.

Lemma closes_url_run_cases (s : string) :
  closes_url_run s = true ->
  s = "" \/ exists s' c, s = s' ++ String c "" /\ tail_class c = false.
Proof.
  induction s as [|c s IH]; [now left|]. intros H. right.
  destruct s as [|c' s].
  - exists "", c. split; [reflexivity|]. simpl in H. now apply negb_true_iff.
  - destruct (IH H) as [E | (s' & x & E & Hx)]; [discriminate E|].
    exists (String c s'), x. split; [now rewrite E | exact Hx].
Qed.

Lemma outside_char_no_match (c : ascii) (s : string) :
  tail_class c = false -> match_here URL_REGEX (String c s) = None.
Proof.
  intros Hc. apply match_here_needs_h. intros ->. discriminate Hc.
Qed.

(** The same across a text that ends with such a character. *)
Lemma replace_cut_closed (s1 s2 : string) :
  closes_url_run s1 = true ->
  replace (s1 ++ s2) URL_REGEX replacer
  = (a <- replace s1 URL_REGEX replacer ;;
     b <- replace s2 URL_REGEX replacer ;; Normal (a ++ b)).
Proof.
  intros H1. apply closes_url_run_cases in H1.
  destruct H1 as [-> | (s' & c & -> & Hc)].
  - rewrite (replace_no_match "") by reflexivity. cbn [bind append].
    symmetry. apply bind_ret.
  - rewrite str_app_assoc.
    rewrite (replace_cut s' (String c "" ++ s2)) by (simpl; now rewrite Hc).
    rewrite (replace_cut s' (String c "")) by (simpl; now rewrite Hc).
    rewrite (replace_no_match (String c "")).
    2:{ cbn [exec]. now rewrite (outside_char_no_match c "" Hc). }
    assert (E : replace (String c "" ++ s2) URL_REGEX replacer
                = (b <- replace s2 URL_REGEX replacer ;; Normal (String c b))).
    { rewrite !(replace_as_loop URL_REGEX replacer candidate_nonempty).
      apply (loop_skip URL_REGEX replacer candidate_nonempty c s2);
        [now apply outside_char_no_match | simpl; lia | lia]. }
    rewrite E. unfold bind.
    destruct (replace s' URL_REGEX replacer) as [a|e]; [|reflexivity].
    destruct (replace s2 URL_REGEX replacer) as [b|e]; [|reflexivity].
    now rewrite str_app_assoc.
Qed.

End Cut.

(** * Schemes in another case *)

Lemma results_nil_exec (s : string) :
  results URL_REGEX s = [] -> forall i, exec URL_REGEX s i = None.
Proof.
  unfold results. cbn [matchAll]. intros H i. rewrite exec_shift.
  destruct (exec URL_REGEX s 0) as [[[position m] rest]|]; [discriminate H|].
  reflexivity.
Qed.

Lemma variant_exec_rest (p rest : string) :
  is_scheme_variant p -> results URL_REGEX rest = [] ->
  exec URL_REGEX (p ++ rest) 0 = None.
Proof.
  intros Hp Hrest. pose proof (variant_no_match p rest Hp) as H0.
  destruct Hp as [[H | H] _]; repeat peel_lower H;
    (destruct p; [|discriminate H]); clear H; cbn [append] in *;
    rewrite (exec_skip _ _ _ _ H0);
    repeat (rewrite exec_skip by (apply match_here_needs_h; not_h));
    now apply results_nil_exec.
Qed.

Lemma same_length_prefix (a : string) :
  forall x b y, a ++ x = b ++ y -> length a = length b -> a = b /\ x = y.
Proof.
  induction a as [|c a IH]; intros x [|d b] y E Hlen; try discriminate Hlen.
  - now split.
  - simpl in E, Hlen. injection E as -> E. injection Hlen as Hlen.
    destruct (IH x b y E Hlen) as [-> ->]. now split.
Qed.

(** No reported span starts at a scheme in another case. *)
Lemma no_span_at_variant (pre p rest : string) (position : nat) (m : string) :
  is_scheme_variant p ->
  In (position, m) (results URL_REGEX (pre ++ p ++ rest)) ->
  position <> length pre.
Proof.
  intros Hp Hin Heq. apply matchAll_spans in Hin.
  destruct Hin as (a & b & E & -> & Hm). cbn [Nat.add] in Heq.
  destruct (same_length_prefix a (m ++ b) pre (p ++ rest)) as [_ E'];
    [now symmetry | exact Heq|].
  rewrite E', (variant_no_match p rest Hp) in Hm. discriminate Hm.
Qed.

Section VariantScheme.

Context {platform : Platform}.

Lemma substituteUrls_cut (s1 s2 : string) :
  ends_url_run s2 = true ->
  substituteUrls (s1 ++ s2)
  = (a <- substituteUrls s1 ;; b <- substituteUrls s2 ;; Normal (a ++ b)).
Proof. apply replace_cut. Qed.

Lemma substituteUrls_cut_closed (s1 s2 : string) :
  closes_url_run s1 = true ->
  substituteUrls (s1 ++ s2)
  = (a <- substituteUrls s1 ;; b <- substituteUrls s2 ;; Normal (a ++ b)).
Proof. apply replace_cut_closed. Qed.

(** C10, as the code has it.  The pattern has no [i] flag: in any text, no
    span starts at [http://] or [https://] written in upper or mixed case.
    The substring made of such a scheme and what follows it is returned
    unchanged, in its place, when no lower-case candidate reaches it: the
    text before it is empty or ends outside the URL characters, the scanner
    finds nothing in what follows the scheme, and the text after it is empty
    or starts outside the URL characters.  The parts before and after are
    rewritten as on their own. *)
Theorem C10_variant_scheme_not_matched (pre p u post : string) :
  is_scheme_variant p ->
  (forall rest position m,
      In (position, m) (results URL_REGEX (pre ++ p ++ rest)) ->
      position <> length pre)
  /\ (closes_url_run pre = true -> results URL_REGEX u = [] ->
      ends_url_run post = true ->
      substituteUrls (pre ++ p ++ u ++ post)
      = (a <- substituteUrls pre ;; b <- substituteUrls post ;;
         Normal (a ++ p ++ u ++ b))).
Proof.
  intros Hp. split.
  - intros rest position m. now apply no_span_at_variant.
  - intros Hpre Hu Hpost.
    rewrite (substituteUrls_cut_closed pre _ Hpre).
    replace (p ++ u ++ post) with ((p ++ u) ++ post) by apply str_app_assoc.
    rewrite (substituteUrls_cut (p ++ u) post Hpost).
    rewrite (substituteUrls_no_match (p ++ u) (variant_exec_rest p u Hp Hu)).
    cbn [bind]. unfold bind.
    destruct (substituteUrls pre) as [a|e]; [|reflexivity].
    destruct (substituteUrls post) as [b|e]; [|reflexivity].
    now rewrite !str_app_assoc.
Qed.

End VariantScheme.

(** * Candidates the URL parser leaves as they are written *)

Lemma url_char_not_space (c : ascii) :
  tail_class c = true -> is_c0_or_space c = false /\ is_tab_or_newline c = false.
Proof. by_all_chars c. Qed.

Lemma url_char_slash (c : ascii) :
  tail_class c = true -> is_slash c = true -> c = "/"%char.
Proof. by_all_chars c. Qed.

Lemma url_char_path (c : ascii) :
  tail_class c = true -> one_of "?#" c = false -> path_set c = false.
Proof. by_all_chars c. Qed.

Lemma url_char_query (c : ascii) :
  tail_class c = true -> Ascii.eqb c "'" = false -> Ascii.eqb "#" c = false ->
  special_query_set c = false.
Proof. by_all_chars c. Qed.

Lemma url_char_fragment (c : ascii) : tail_class c = true -> fragment_set c = false.
Proof. by_all_chars c. Qed.

Lemma path_end_cases (c : ascii) :
  one_of "?#" c = true -> c = "?"%char \/ c = "#"%char.
Proof. by_all_chars c. Qed.

Lemma host_char_facts (c : ascii) :
  host_class c = true ->
  ends_authority c = false /\ is_slash c = false
  /\ Ascii.eqb c "@" = false /\ Ascii.eqb c ":" = false
  /\ Ascii.eqb "%" c = false /\ c <> "["%char
  /\ is_ascii_byte c = true /\ forbidden_domain_code_point c = false.
Proof. by_all_chars c; repeat split; congruence. Qed.

Lemma forallb_str_all (P : ascii -> bool) (Q : ascii -> Prop) (s : string) :
  (forall c, P c = true -> Q c) -> forallb_str P s = true ->
  forall a c b, s = a ++ String c b -> Q c.
Proof.
  intros HPQ H a c b ->. rewrite forallb_str_app in H.
  apply andb_true_iff in H. destruct H as [_ H]. simpl in H.
  apply andb_true_iff in H. destruct H as [H _]. now apply HPQ.
Qed.

Lemma span_until_join (p : ascii -> bool) (s : string) :
  fst (span_until p s) ++ snd (span_until p s) = s.
Proof.
  induction s as [|c s IH]; [reflexivity|]. cbn [span_until].
  destruct (p c); [reflexivity|].
  destruct (span_until p s) as [a b]. simpl in *. now rewrite IH.
Qed.

Lemma span_until_fst_all (P p : ascii -> bool) (s : string) :
  forallb_str P s = true -> forallb_str P (fst (span_until p s)) = true.
Proof.
  induction s as [|c s IH]; [reflexivity|]. cbn [span_until forallb_str].
  intros H. apply andb_true_iff in H. destruct H as [Hc H].
  destruct (p c); [reflexivity|].
  destruct (span_until p s) as [a b]. simpl in *. now rewrite Hc, IH.
Qed.

Lemma span_until_snd_all (P p : ascii -> bool) (s : string) :
  forallb_str P s = true -> forallb_str P (snd (span_until p s)) = true.
Proof.
  induction s as [|c s IH]; [reflexivity|]. cbn [span_until].
  intros H. destruct (p c); [exact H|]. cbn [forallb_str] in H.
  apply andb_true_iff in H. destruct H as [_ H].
  destruct (span_until p s) as [a b]. simpl in *. now apply IH.
Qed.

Lemma span_until_fst_not (p : ascii -> bool) (s : string) :
  forallb_str (fun c => negb (p c)) (fst (span_until p s)) = true.
Proof.
  induction s as [|c s IH]; [reflexivity|]. cbn [span_until].
  destruct (p c) eqn:Hc; [reflexivity|].
  destruct (span_until p s) as [a b]. simpl in *. now rewrite Hc, IH.
Qed.

Lemma span_until_snd_head (p : ascii -> bool) (s : string) :
  match snd (span_until p s) with
  | String c _ => p c = true
  | EmptyString => True
  end.
Proof.
  induction s as [|c s IH]; [exact I|]. cbn [span_until].
  destruct (p c) eqn:Hc; [exact Hc|].
  destruct (span_until p s) as [a b]. exact IH.
Qed.

Lemma span_until_app (p : ascii -> bool) (a : string) (c : ascii) (r : string) :
  forallb_str (fun x => negb (p x)) a = true -> p c = true ->
  span_until p (a ++ String c r) = (a, String c r).
Proof.
  intros Ha Hc. induction a as [|x a IH]; cbn [append span_until].
  - now rewrite Hc.
  - simpl in Ha. apply andb_true_iff in Ha. destruct Ha as [Hx Ha].
    apply negb_true_iff in Hx. now rewrite Hx, (IH Ha).
Qed.

Lemma percent_encode_id (set : ascii -> bool) (s : string) :
  forallb_str (fun c => negb (set c)) s = true -> percent_encode set s = s.
Proof.
  induction s as [|c s IH]; [reflexivity|]. cbn [forallb_str percent_encode].
  intros H. apply andb_true_iff in H. destruct H as [Hc H].
  apply negb_true_iff in Hc. now rewrite Hc, (IH H).
Qed.

Lemma split_last_none (c : ascii) (s : string) :
  forallb_str (fun a => negb (Ascii.eqb a c)) s = true -> split_last c s = None.
Proof.
  induction s as [|a s IH]; [reflexivity|]. cbn [forallb_str split_last].
  intros H. apply andb_true_iff in H. destruct H as [Ha H].
  apply negb_true_iff in Ha. now rewrite (IH H), Ha.
Qed.

Lemma split_port_none (s : string) :
  forallb_str (fun a => negb (Ascii.eqb a ":")) s = true ->
  forall inside, split_port inside s = (s, None).
Proof.
  induction s as [|a s IH]; [reflexivity|]. cbn [forallb_str split_port].
  intros H inside. apply andb_true_iff in H. destruct H as [Ha H].
  apply negb_true_iff in Ha. rewrite Ha. cbn [andb]. now rewrite (IH H).
Qed.

Lemma strip_leading_id (s : string) :
  forallb_str (fun c => negb (is_c0_or_space c)) s = true -> strip_leading s = s.
Proof.
  destruct s as [|c s]; [reflexivity|]. cbn [forallb_str strip_leading].
  intros H. apply andb_true_iff in H. destruct H as [Hc _].
  apply negb_true_iff in Hc. now rewrite Hc.
Qed.

Lemma strip_trailing_id (s : string) :
  forallb_str (fun c => negb (is_c0_or_space c)) s = true -> strip_trailing s = s.
Proof.
  induction s as [|c s IH]; [reflexivity|]. cbn [forallb_str strip_trailing].
  intros H. apply andb_true_iff in H. destruct H as [Hc H].
  apply negb_true_iff in Hc. rewrite (IH H), Hc. now destruct s.
Qed.

Lemma remove_chars_id (p : ascii -> bool) (s : string) :
  forallb_str (fun c => negb (p c)) s = true -> remove_chars p s = s.
Proof.
  induction s as [|c s IH]; [reflexivity|]. cbn [forallb_str remove_chars].
  intros H. apply andb_true_iff in H. destruct H as [Hc H].
  apply negb_true_iff in Hc. now rewrite Hc, (IH H).
Qed.

Lemma concat_empty_cons (x : string) (l : list string) :
  String.concat "" (x :: l) = x ++ String.concat "" l.
Proof. destruct l; simpl; [now rewrite str_app_nil_r | reflexivity]. Qed.

Lemma serialize_path_cons (x : string) (l : list string) :
  serialize_path (x :: l) = String "/" (x ++ serialize_path l).
Proof. unfold serialize_path. cbn [map]. now rewrite concat_empty_cons. Qed.

Lemma serialize_path_app (l1 l2 : list string) :
  serialize_path (l1 ++ l2) = serialize_path l1 ++ serialize_path l2.
Proof.
  induction l1 as [|x l1 IH]; [reflexivity|].
  cbn [app]. rewrite !serialize_path_cons, IH. cbn [append].
  now rewrite str_app_assoc.
Qed.

Lemma split_on_nonempty (sep : ascii) (s : string) : split_on sep s <> [].
Proof.
  destruct s as [|c s]; cbn [split_on]; [discriminate|].
  destruct (Ascii.eqb c sep); [discriminate|].
  destruct (split_on sep s); discriminate.
Qed.

(** Splitting on the slash and putting the slashes back. *)
Lemma serialize_split (p : string) :
  serialize_path (split_on "/" p) = String "/" p.
Proof.
  induction p as [|c p IH]; [reflexivity|]. cbn [split_on].
  destruct (Ascii.eqb_spec c "/") as [-> | Hc].
  - rewrite serialize_path_cons, IH. reflexivity.
  - destruct (split_on "/" p) as [|x xs] eqn:E;
      [now apply split_on_nonempty in E|].
    rewrite serialize_path_cons in *. injection IH as IH.
    cbn [append]. now rewrite IH.
Qed.

Lemma forallb_str_and3 (P1 P2 P3 Q : ascii -> bool) (s : string) :
  (forall c, P1 c = true -> P2 c = true -> P3 c = true -> Q c = true) ->
  forallb_str P1 s = true -> forallb_str P2 s = true -> forallb_str P3 s = true ->
  forallb_str Q s = true.
Proof.
  intros H. induction s as [|c s IH]; [reflexivity|]. cbn [forallb_str].
  intros H1 H2 H3. apply andb_true_iff in H1, H2, H3.
  destruct H1 as [A1 B1], H2 as [A2 B2], H3 as [A3 B3].
  now rewrite (H c A1 A2 A3), (IH B1 B2 B3).
Qed.

Lemma end_segment_free (buffer : string) (path : list string) (slash : bool) :
  dot_free buffer = true -> end_segment buffer path slash = (path ++ [buffer])%list.
Proof.
  unfold dot_free, end_segment. intros H. apply andb_true_iff in H.
  destruct H as [H1 H2]. apply negb_true_iff in H1, H2. now rewrite H1, H2.
Qed.

Lemma path_text_cons (c : ascii) (s : string) :
  one_of "?#" c = false ->
  path_text (String c s) = String c (path_text s)
  /\ after_path (String c s) = after_path s.
Proof.
  intros Hc. unfold path_text, after_path. cbn [span_until]. rewrite Hc.
  now destruct (span_until (one_of "?#") s).
Qed.

Lemma path_text_end (c : ascii) (s : string) :
  one_of "?#" c = true ->
  path_text (String c s) = "" /\ after_path (String c s) = String c s.
Proof.
  intros Hc. unfold path_text, after_path. cbn [span_until]. now rewrite Hc.
Qed.

Lemma segments_of_empty (p : string) : segments_of "" p = split_on "/" p.
Proof.
  unfold segments_of. destruct (split_on "/" p) eqn:E; [|reflexivity].
  now apply split_on_nonempty in E.
Qed.

Lemma segments_of_push (buffer : string) (c : ascii) (p : string) :
  Ascii.eqb c "/" = false ->
  segments_of buffer (String c p) = segments_of (buffer ++ String c "") p.
Proof.
  intros Hc. unfold segments_of. cbn [split_on]. rewrite Hc.
  destruct (split_on "/" p) eqn:E; [now apply split_on_nonempty in E|].
  now rewrite str_app_assoc.
Qed.

(** The path state on a text of URL characters without dot segments: the
    segments are the pieces between the slashes. *)
Lemma path_state_verbatim (s : string) :
  forall buffer path,
    forallb_str tail_class s = true ->
    forallb dot_free (segments_of buffer (path_text s)) = true ->
    path_state s buffer path
    = ((path ++ segments_of buffer (path_text s))%list, after_path s).
Proof.
  induction s as [|c s IH]; intros buffer path Hs Hfree.
  - cbn in Hfree |- *. rewrite str_app_nil_r in *.
    rewrite andb_true_r in Hfree. now rewrite (end_segment_free _ _ _ Hfree).
  - cbn [forallb_str] in Hs. apply andb_true_iff in Hs. destruct Hs as [Hc Hs].
    cbn [path_state]. destruct (is_slash c) eqn:Hslash.
    + pose proof (url_char_slash c Hc Hslash) as ->.
      destruct (path_text_cons "/" s eq_refl) as [Ep Ea]. rewrite Ep, Ea in *.
      unfold segments_of in Hfree |- *. cbn [split_on] in Hfree |- *.
      change (Ascii.eqb "/" "/") with true in Hfree |- *. cbn iota in Hfree |- *.
      rewrite str_app_nil_r in *. cbn [forallb] in Hfree.
      apply andb_true_iff in Hfree. destruct Hfree as [Hb Hrest].
      rewrite (end_segment_free _ _ _ Hb).
      rewrite (IH "" (path ++ [buffer])%list Hs)
        by now rewrite segments_of_empty.
      now rewrite segments_of_empty, <- app_assoc.
    + destruct (one_of "?#" c) eqn:Hend.
      * destruct (path_text_end c s Hend) as [Ep Ea]. rewrite Ep, Ea in *.
        cbn in Hfree |- *. rewrite str_app_nil_r in *.
        rewrite andb_true_r in Hfree. now rewrite (end_segment_free _ _ _ Hfree).
      * destruct (path_text_cons c s Hend) as [Ep Ea]. rewrite Ep, Ea in *.
        assert (Hc' : Ascii.eqb c "/" = false).
        { unfold is_slash in Hslash. cbn [one_of] in Hslash.
          now apply orb_false_iff in Hslash. }
        rewrite (segments_of_push buffer c _ Hc') in *.
        cbn [percent_encode]. rewrite (url_char_path c Hc Hend).
        cbn [append]. now apply IH.
Qed.

(** Query and fragment of a text of URL characters without an apostrophe in
    the query are kept as written. *)
Lemma query_fragment_verbatim (u : string) :
  forallb_str tail_class u = true ->
  match u with String c _ => one_of "?#" c = true | EmptyString => True end ->
  forallb_str (fun c => negb (Ascii.eqb c "'"))
    (match u with
     | String c s' => if Ascii.eqb c "?" then fst (span_until (Ascii.eqb "#") s') else ""
     | EmptyString => ""
     end) = true ->
  serialize_query_fragment (query_fragment u) = u.
Proof.
  destruct u as [|c s']; [reflexivity|]. cbn [forallb_str].
  intros Hu Hc Hq. apply andb_true_iff in Hu. destruct Hu as [_ Hs'].
  apply path_end_cases in Hc. destruct Hc as [-> | ->].
  - change (Ascii.eqb "?" "?") with true in Hq. cbn iota in Hq.
    cbn [query_fragment].
    pose proof (span_until_join (Ascii.eqb "#") s') as Hjoin.
    pose proof (span_until_fst_all tail_class (Ascii.eqb "#") s' Hs') as Hq1.
    pose proof (span_until_snd_all tail_class (Ascii.eqb "#") s' Hs') as Hf1.
    pose proof (span_until_fst_not (Ascii.eqb "#") s') as Hq2.
    pose proof (span_until_snd_head (Ascii.eqb "#") s') as Hhead.
    destruct (span_until (Ascii.eqb "#") s') as [q tl]. cbn [fst snd] in *.
    unfold serialize_query_fragment. cbn [fst snd].
    rewrite (percent_encode_id special_query_set q).
    2:{ apply (forallb_str_and3 tail_class (fun c => negb (Ascii.eqb c "'"))
                 (fun c => negb (Ascii.eqb "#" c))); trivial.
        intros c H1 H2 H3. apply negb_true_iff in H2, H3. apply negb_true_iff.
        now apply url_char_query. }
    destruct tl as [|c' f].
    + rewrite str_app_nil_r in *. now rewrite Hjoin.
    + apply Ascii.eqb_eq in Hhead. subst c'. cbn [forallb_str] in Hf1.
      apply andb_true_iff in Hf1. destruct Hf1 as [_ Hf1].
      rewrite (percent_encode_id fragment_set f).
      2:{ revert Hf1. apply forallb_str_weaken. intros c H.
          apply negb_true_iff. now apply url_char_fragment. }
      cbn [append]. now rewrite <- Hjoin.
  - cbn [query_fragment]. unfold serialize_query_fragment. cbn [fst snd append].
    rewrite (percent_encode_id fragment_set s'); [reflexivity|].
    revert Hs'. apply forallb_str_weaken. intros c H.
    apply negb_true_iff. now apply url_char_fragment.
Qed.

Lemma skip_slashes_host (c : ascii) (x : string) :
  is_slash c = false ->
  skip_slashes (String "/" (String "/" (String c x))) = String c x.
Proof.
  intros Hc. cbn [skip_slashes]. change (is_slash "/") with true.
  cbn iota. now rewrite Hc.
Qed.

Lemma lower_tail (c : ascii) (s : string) :
  lower (String c s) = String c s -> lower s = s.
Proof. cbn [lower]. now intros [= _ H]. Qed.

Section Verbatim.

Context {platform : Platform}.

Lemma parse_host_plain (h : string) :
  plain_lower_host h = true -> parse_host h = Some (Domain h).
Proof.
  unfold plain_lower_host. intros H.
  repeat (apply andb_true_iff in H; destruct H as [H ?]).
  match goal with H : negb (ends_in_number _) = true |- _ =>
    apply negb_true_iff in H; rename H into Hnum end.
  match goal with H : negb (has_punycode_label _) = true |- _ =>
    rename H into Hpuny end.
  match goal with H : String.eqb (lower _) _ = true |- _ =>
    apply String.eqb_eq in H; rename H into Hlow end.
  match goal with H : forallb_str host_class _ = true |- _ =>
    rename H into Hhost end.
  destruct h as [|c0 h0]; [discriminate H|]. clear H.
  assert (Hplain : plain_domain (String c0 h0) = true).
  { unfold plain_domain, existsb_str. rewrite Hpuny, andb_true_r.
    rewrite (forallb_str_weaken host_class is_ascii_byte); trivial.
    2:{ intros c Hc. apply (host_char_facts c Hc). }
    rewrite (forallb_str_weaken host_class (fun c => negb (Ascii.eqb "%" c)));
      trivial.
    2:{ intros c Hc. apply negb_true_iff. apply (host_char_facts c Hc). }
    cbn [negb andb]. unfold startsWith. cbn [String.prefix].
    destruct (ascii_dec "[" c0) as [<- | _]; [discriminate Hhost | reflexivity]. }
  unfold parse_host. rewrite Hplain, Hlow.
  assert (Hforb : existsb_str forbidden_domain_code_point (String c0 h0) = false).
  { unfold existsb_str. apply negb_false_iff. revert Hhost.
    apply forallb_str_weaken. intros c Hc. apply negb_true_iff.
    apply (host_char_facts c Hc). }
  now rewrite Hforb, Hnum.
Qed.

(** The parser on scheme, plain lower-case host, slash and a tail it leaves
    as written. *)
Lemma parse_special_verbatim (scheme h t : string) :
  plain_lower_host h = true -> verbatim_tail t = true ->
  parse_special scheme (String "/" (String "/" (h ++ String "/" t)))
  = Some (mkURL scheme "" "" (Domain h) None
                (split_on "/" (path_text t))
                (fst (query_fragment (after_path t)))
                (snd (query_fragment (after_path t)))).
Proof.
  intros Hh Ht. pose proof (parse_host_plain h Hh) as Hparse.
  unfold plain_lower_host in Hh.
  repeat (apply andb_true_iff in Hh; destruct Hh as [Hh ?]).
  match goal with H : forallb_str host_class _ = true |- _ =>
    rename H into Hhost end.
  unfold verbatim_tail in Ht.
  repeat (apply andb_true_iff in Ht; destruct Ht as [Ht ?]).
  match goal with H : forallb dot_free _ = true |- _ => rename H into Hfree end.
  destruct h as [|c0 h0]; [discriminate Hh|].
  assert (Hc0 : host_class c0 = true)
    by (cbn [forallb_str] in Hhost; now apply andb_true_iff in Hhost).
  unfold parse_special. cbn [append].
  rewrite (skip_slashes_host c0 _ (proj1 (proj2 (host_char_facts c0 Hc0)))).
  change (String c0 (h0 ++ String "/" t)) with (String c0 h0 ++ String "/" t).
  rewrite (span_until_app ends_authority (String c0 h0) "/" t); trivial.
  2:{ revert Hhost. apply forallb_str_weaken. intros c Hc.
      apply negb_true_iff. apply (host_char_facts c Hc). }
  rewrite (split_last_none "@" (String c0 h0)).
  2:{ revert Hhost. apply forallb_str_weaken. intros c Hc.
      apply negb_true_iff. apply (host_char_facts c Hc). }
  rewrite (split_port_none (String c0 h0)).
  2:{ revert Hhost. apply forallb_str_weaken. intros c Hc.
      apply negb_true_iff. apply (host_char_facts c Hc). }
  rewrite Hparse.
  change (parse_port scheme "") with (Some (@None N)).
  change (path_start_state (String "/" t)) with (path_state t "" []).
  rewrite (path_state_verbatim t "" [] Ht)
    by now rewrite segments_of_empty.
  rewrite segments_of_empty. cbn [app fst snd].
  now destruct (query_fragment (after_path t)).
Qed.

Lemma url_chars_no_space (s : string) :
  forallb_str tail_class s = true ->
  forallb_str (fun c => negb (is_c0_or_space c)) s = true
  /\ forallb_str (fun c => negb (is_tab_or_newline c)) s = true.
Proof.
  intros H. split; revert H; apply forallb_str_weaken; intros c Hc;
    apply negb_true_iff; apply (url_char_not_space c Hc).
Qed.

Lemma URL_new_verbatim (sch h t : string) :
  is_scheme_prefix sch -> plain_lower_host h = true -> verbatim_tail t = true ->
  exists scheme,
    sch = scheme ++ "://"
    /\ URL_new (sch ++ h ++ String "/" t)
       = Normal (mkURL scheme "" "" (Domain h) None
                       (split_on "/" (path_text t))
                       (fst (query_fragment (after_path t)))
                       (snd (query_fragment (after_path t)))).
Proof.
  intros Hsch Hh Ht.
  assert (Hall : forallb_str tail_class (sch ++ h ++ String "/" t) = true).
  { rewrite !forallb_str_app. cbn [forallb_str].
    assert (Hhost : forallb_str host_class h = true).
    { unfold plain_lower_host in Hh.
      repeat (apply andb_true_iff in Hh; destruct Hh as [Hh ?]). assumption. }
    assert (Htail : forallb_str tail_class t = true).
    { unfold verbatim_tail in Ht.
      repeat (apply andb_true_iff in Ht; destruct Ht as [Ht ?]). assumption. }
    rewrite (forallb_str_weaken _ _ h host_class_tail_class Hhost), Htail.
    destruct Hsch as [-> | ->]; reflexivity. }
  destruct (url_chars_no_space _ Hall) as [Hsp Htab].
  unfold URL_new.
  rewrite (strip_leading_id _ Hsp), (strip_trailing_id _ Hsp),
    (remove_chars_id _ _ Htab).
  destruct Hsch as [-> | ->].
  - exists "http". split; [reflexivity|].
    change (parse_scheme ("http://" ++ h ++ String "/" t))
      with (Some ("http", String "/" (String "/" (h ++ String "/" t)))).
    cbn [String.eqb Ascii.eqb Bool.eqb orb].
    now rewrite (parse_special_verbatim "http" h t Hh Ht).
  - exists "https". split; [reflexivity|].
    change (parse_scheme ("https://" ++ h ++ String "/" t))
      with (Some ("https", String "/" (String "/" (h ++ String "/" t)))).
    cbn [String.eqb Ascii.eqb Bool.eqb orb].
    now rewrite (parse_special_verbatim "https" h t Hh Ht).
Qed.

Lemma serialize_after_verbatim (scheme : string) (x : Host) (t : string) :
  verbatim_tail t = true ->
  serialize_after_host
    (mkURL scheme "" "" x None (split_on "/" (path_text t))
           (fst (query_fragment (after_path t)))
           (snd (query_fragment (after_path t))))
  = String "/" t.
Proof.
  intros Ht. unfold verbatim_tail in Ht.
  repeat (apply andb_true_iff in Ht; destruct Ht as [Ht ?]).
  match goal with H : forallb_str (fun c => negb (Ascii.eqb c "'")) _ = true |- _ =>
    rename H into Hq end.
  change (serialize_after_host
            (mkURL scheme "" "" x None (split_on "/" (path_text t))
                   (fst (query_fragment (after_path t)))
                   (snd (query_fragment (after_path t)))))
    with (serialize_path (split_on "/" (path_text t))
          ++ serialize_query_fragment (query_fragment (after_path t))).
  rewrite serialize_split, query_fragment_verbatim.
  - cbn [append]. unfold path_text, after_path. now rewrite span_until_join.
  - unfold after_path. now apply span_until_snd_all.
  - unfold after_path. apply span_until_snd_head.
  - exact Hq.
Qed.

(** A candidate written as scheme, plain lower-case host, slash and a tail
    the parser leaves alone is rewritten by replacing the text of the host
    and nothing else. *)
Lemma verbatim_rewrite (sch h t suffix mirror : string) :
  is_scheme_prefix sch -> plain_lower_host h = true -> verbatim_tail t = true ->
  mirror_of suffix mirror -> endsWith h suffix = true ->
  maybeReplaceUrl (sch ++ h ++ String "/" t)
  = Normal (sch ++ mirror ++ String "/" t
            ++ " ([source](" ++ (sch ++ h ++ String "/" t) ++ "))").
Proof.
  intros Hsch Hh Ht M Hends.
  destruct (URL_new_verbatim sch h t Hsch Hh Ht) as (name & -> & E).
  rewrite (replacement_of_mirror _ _ suffix mirror E M Hends).
  unfold with_host. cbn [scheme username password host port path query fragment].
  unfold URL_toString.
  rewrite (serialize_after_verbatim name (Domain mirror) t Ht).
  cbn [host serialize_host].
  unfold serialize_before_host, source_note.
  cbn [scheme username password String.eqb andb].
  cbn [append]. now rewrite !str_app_assoc.
Qed.

(** C4, as the code has it.  The URL put into the replacement is the parsed
    candidate with its host replaced: scheme, credentials, port, path, query
    and fragment are those the URL parser made of the candidate, and the two
    serialisations are the same text around the host.  When the candidate is
    scheme, plain lower-case host, slash and a tail without dot segment in
    the path and without apostrophe in the query, that text is the matched
    text itself, so that only the host differs from the original; elsewhere
    the parser's normal form shows.  The specification's example evaluates
    as it says. *)
Theorem C4_host_replaced_rest_kept (suffix mirror : string) :
  mirror_of suffix mirror ->
  (forall url0 url,
      URL_new url0 = Normal url -> endsWith (URL_host url) suffix = true ->
      exists url',
        maybeReplaceUrl url0 = Normal (URL_toString url' ++ source_note url0)
        /\ host url' = Domain mirror
        /\ scheme url' = scheme url /\ path url' = path url
        /\ query url' = query url /\ fragment url' = fragment url
        /\ username url' = username url /\ password url' = password url
        /\ port url' = port url
        /\ exists before after,
             URL_toString url = before ++ serialize_host (host url) ++ after
             /\ URL_toString url' = before ++ mirror ++ after)
  /\ (forall sch h t,
        is_scheme_prefix sch -> plain_lower_host h = true ->
        verbatim_tail t = true -> endsWith h suffix = true ->
        maybeReplaceUrl (sch ++ h ++ String "/" t)
        = Normal (sch ++ mirror ++ String "/" t
                  ++ " ([source](" ++ (sch ++ h ++ String "/" t) ++ "))"))
  /\ substituteUrls "https://mobile.twitter.com/wezm/status/123?s=20"
     = Normal "https://nitter.net/wezm/status/123?s=20 ([source](https://mobile.twitter.com/wezm/status/123?s=20))".
Proof.
  intros M. split; [|split; [|reflexivity]].
  - intros url0 url E H. exists (with_host url (Domain mirror)).
    split; [exact (replacement_of_mirror _ _ _ _ E M H)|].
    repeat (split; [reflexivity|]).
    exists (serialize_before_host url), (serialize_after_host url).
    split; reflexivity.
  - intros sch h t Hsch Hh Ht Hends. now apply (verbatim_rewrite sch h t suffix mirror).
Qed.

(** C5 at an input on which it fails.  The host [eviltwitter.com] matches no
    mirror rule (it neither equals a suffix nor ends with a dot and the
    suffix), and the candidate does not come back unchanged: the code tests
    [endsWith] alone and rewrites it. *)
Theorem C5_unruled_host_is_rewritten :
  results URL_REGEX "https://eviltwitter.com/x" = [(0, "https://eviltwitter.com/x")]
  /\ (exists url,
        URL_new "https://eviltwitter.com/x" = Normal url
        /\ URL_host url = "eviltwitter.com"
        /\ spec_host_match (URL_host url) "twitter.com" = false
        /\ spec_host_match (URL_host url) "medium.com" = false)
  /\ maybeReplaceUrl "https://eviltwitter.com/x"
     = Normal "https://nitter.net/x ([source](https://eviltwitter.com/x))"
  /\ substituteUrls "https://eviltwitter.com/x"
     = Normal "https://nitter.net/x ([source](https://eviltwitter.com/x))"
  /\ substituteUrls "https://eviltwitter.com/x"
     <> Normal "https://eviltwitter.com/x".
Proof.
  split; [reflexivity|].
  split; [|split; [reflexivity | split; [reflexivity | discriminate]]].
  eexists. split; [reflexivity|]. repeat split; reflexivity.
Qed.

End Verbatim.

(** * Concrete inputs for the host rewrite and the variant schemes *)

(** C4 fails as stated: the path loses its dot segments and the apostrophes
    of the query are percent-encoded, so path and query of the rewritten URL
    are not those of the matched text. *)
Lemma C4_counterexample :
  results URL_REGEX "https://twitter.com/a/../b?q='x'"
  = [(0, "https://twitter.com/a/../b?q='x'")]
  /\ run "https://twitter.com/a/../b?q='x'"
     = Normal "https://nitter.net/b?q=%27x%27 ([source](https://twitter.com/a/../b?q='x'))"
  /\ run "https://twitter.com/a/../b?q='x'"
     <> Normal "https://nitter.net/a/../b?q='x' ([source](https://twitter.com/a/../b?q='x'))".
Proof. split; [reflexivity|]. split; [reflexivity | discriminate]. Qed.

Lemma C4_witness :
  @maybeReplaceUrl bare "https://mobile.twitter.com/wezm/status/123?s=20"
  = Normal "https://nitter.net/wezm/status/123?s=20 ([source](https://mobile.twitter.com/wezm/status/123?s=20))"
  /\ @maybeReplaceUrl bare "http://jxxcarlson.medium.com/post-1?a=b#c"
     = Normal "http://scribe.rip/post-1?a=b#c ([source](http://jxxcarlson.medium.com/post-1?a=b#c))".
Proof.
  split.
  - apply (proj1 (proj2 (@C4_host_replaced_rest_kept bare "twitter.com" "nitter.net"
                           (or_introl (conj eq_refl eq_refl))))
             "https://" "mobile.twitter.com" "wezm/status/123?s=20");
      [right|..]; reflexivity.
  - apply (proj1 (proj2 (@C4_host_replaced_rest_kept bare "medium.com" "scribe.rip"
                           (or_intror (conj eq_refl eq_refl))))
             "http://" "jxxcarlson.medium.com" "post-1?a=b#c");
      [left|..]; reflexivity.
Defined.

(** C10 fails as stated: a lower-case URL inside the substring is a candidate
    of its own and is rewritten. *)
Lemma C10_counterexample :
  match_here URL_REGEX "HTTPS://a.bc/https://twitter.com/x" = None
  /\ results URL_REGEX "HTTPS://a.bc/https://twitter.com/x"
     = [(13, "https://twitter.com/x")]
  /\ run "HTTPS://a.bc/https://twitter.com/x"
     = Normal "HTTPS://a.bc/https://nitter.net/x ([source](https://twitter.com/x))".
Proof. repeat split; reflexivity. Qed.

Lemma C10_witness :
  run "HTTPS://twitter.com/x" = Normal "HTTPS://twitter.com/x"
  /\ run "see HTTPS://twitter.com:8080/x or https://twitter.com/y"
     = Normal "see HTTPS://twitter.com:8080/x or https://nitter.net/y ([source](https://twitter.com/y))".
Proof.
  assert (V : is_scheme_variant "HTTPS://")
    by (split; [right; reflexivity | discriminate]).
  split.
  - destruct (@C10_variant_scheme_not_matched bare "" "HTTPS://" "twitter.com/x" "" V)
      as [_ H].
    assert (A : closes_url_run "" = true) by reflexivity.
    assert (B : results URL_REGEX "twitter.com/x" = []) by (vm_compute; reflexivity).
    assert (C : ends_url_run "" = true) by reflexivity.
    specialize (H A B C).
    vm_compute in H. vm_compute. exact H.
  - destruct (@C10_variant_scheme_not_matched bare "see " "HTTPS://"
                "twitter.com:8080/x" " or https://twitter.com/y" V) as [_ H].
    assert (A : closes_url_run "see " = true) by reflexivity.
    assert (B : results URL_REGEX "twitter.com:8080/x" = []) by (vm_compute; reflexivity).
    assert (C : ends_url_run " or https://twitter.com/y" = true) by reflexivity.
    specialize (H A B C).
    vm_compute in H. vm_compute. exact H.
Defined.
